(** * fallback-ai: the priority / fallback scheduling core

    A shallow embedding of [src/types.ts], [src/priority.ts] and the
    [FallbackAI] class of [src/index.ts].

    Provider objects are mutable and shared by reference between the
    registry array [this.providers], the per-call queue
    [providersToUpdate] and whoever reads [getProviders()].  They live in
    a store indexed by references; arrays hold references.  The clock
    ([Date.now()]) and the network ([fetch]) are inputs of the model. *)

From Stdlib Require Import ZArith Lia Ascii String.
From stdpp Require Import base list strings gmap functions sorting.

Local Open Scope string_scope.
Local Open Scope list_scope.
Local Open Scope Z_scope.

(** ** JavaScript numbers, as far as priorities need them

    Priorities are integers.  A field that was never assigned reads
    [undefined], and arithmetic on [undefined] gives [NaN]. *)

Inductive jsnum : Type :=
  | Num (z : Z)
  | NaN
  | Undefined.

Global Instance jsnum_eq_dec : EqDecision jsnum.
Proof. solve_decision. Defined.

(** Numbers are IEEE-754 doubles: every integer below [2^53] in
    magnitude is one, and a larger integer result is rounded to the
    nearest double, a multiple of the spacing [2^(e-52)] at its binary
    exponent [e], ties going to the even multiple.  (The sum of a double
    and an array length is far from the largest double's rounding
    threshold, so no sum overflows.) *)
Definition two53 : Z := 9007199254740992.

Definition round_double (x : Z) : Z :=
  let a := Z.abs x in
  if a <? two53 then x
  else
    let ulp := 2 ^ (Z.log2 a - 52) in
    let q := a / ulp in
    let r := a mod ulp in
    let m :=
      if 2 * r <? ulp then q
      else if ulp <? 2 * r then q + 1
      else if Z.even q then q else q + 1 in
    Z.sgn x * (m * ulp).

(** [a + n] for an integer [n]: the exact sum, rounded. *)
Definition js_add (a : jsnum) (n : Z) : jsnum :=
  match a with
  | Num z => Num (round_double (z + n))
  | NaN | Undefined => NaN
  end.

(** [a - b].  Only the sign of a difference is ever read (by the sort),
    and rounding keeps the sign of a non-zero integer. *)
Definition js_sub (a b : jsnum) : jsnum :=
  match a, b with
  | Num x, Num y => Num (x - y)
  | _, _ => NaN
  end.

(** [a != b] (loose inequality; [NaN] differs from everything). *)
Definition js_neq (a b : jsnum) : bool :=
  match a, b with
  | Num x, Num y => negb (x =? y)
  | Undefined, Undefined => false
  | _, _ => true
  end.

(** [a ?? b]. *)
Definition js_nullish (a b : jsnum) : jsnum :=
  match a with
  | Undefined => b
  | _ => a
  end.

(** A comparator result counts as "greater" only when it is a positive
    number; [Array.prototype.sort] reads [NaN] as [+0]. *)
Definition js_positive (v : jsnum) : bool :=
  match v with
  | Num z => 0 <? z
  | _ => false
  end.

(** Truthiness of an optional number: [undefined] and [0] are falsy. *)
Definition truthy_num (o : option Z) : bool :=
  match o with
  | Some z => negb (z =? 0)
  | None => false
  end.

(** ** types.ts *)

Inductive AIProvider : Type := GEMINI | GROQ | MISTRAL | CEREBRAS.

Global Instance AIProvider_eq_dec : EqDecision AIProvider.
Proof. solve_decision. Defined.

Definition provider_string (a : AIProvider) : string :=
  match a with
  | GEMINI => "gemini"
  | GROQ => "groq"
  | MISTRAL => "mistral"
  | CEREBRAS => "cerebras"
  end.

Inductive FailureType : Type := Retryable | NonRetryable.

Global Instance FailureType_eq_dec : EqDecision FailureType.
Proof. solve_decision. Defined.

(** JSON values are passed through unchanged; nothing below looks inside
    one.  [JOther] holds the text of an array or a nested object. *)
Inductive Json : Type :=
  | JNull
  | JBool (b : bool)
  | JNumber (z : Z)
  | JString (s : string)
  | JOther (text : string).

Record Provider : Type := mkProvider {
  aiName : AIProvider;
  apiKey : string;
  model : string;
  priority : jsnum;
  originalPriority : jsnum;
  lastFailureTime : option Z;
  lastFailureType : option FailureType;
  parameters : option (gmap string Json)
}.

Record AIError : Type := mkAIError {
  message : string;
  provider : AIProvider;
  statusCode : option Z;
  retryable : bool;
  errorBody : option Json
}.

(** The caller's options, every field optional. *)
Record FallbackAIOptions : Type := mkFallbackAIOptions {
  opt_enablePriorityUpdates : option bool;
  opt_timeout : option Z;
  opt_retryableCodes : option (list Z);
  opt_retryableErrorTimeout : option Z;
  opt_nonRetryableErrorTimeout : option Z
}.

(** [Required<FallbackAIOptions>]. *)
Record Options : Type := mkOptions {
  enablePriorityUpdates : bool;
  timeout : Z;
  retryableCodes : list Z;
  retryableErrorTimeout : Z;
  nonRetryableErrorTimeout : Z
}.

(** A field of the object [call] resolves to: a field of the raw
    payload, the [provider] annotation or the collected [errors]. *)
Inductive Field : Type :=
  | FRaw (j : Json)
  | FProvider (a : AIProvider)
  | FErrors (es : list AIError).

(** ** Field updates on a provider object *)

Definition set_priority (v : jsnum) (p : Provider) : Provider :=
  {| aiName := aiName p; apiKey := apiKey p; model := model p;
     priority := v; originalPriority := originalPriority p;
     lastFailureTime := lastFailureTime p;
     lastFailureType := lastFailureType p;
     parameters := parameters p |}.

Definition set_originalPriority (v : jsnum) (p : Provider) : Provider :=
  {| aiName := aiName p; apiKey := apiKey p; model := model p;
     priority := priority p; originalPriority := v;
     lastFailureTime := lastFailureTime p;
     lastFailureType := lastFailureType p;
     parameters := parameters p |}.

Definition set_failure (t : option Z) (k : option FailureType)
    (p : Provider) : Provider :=
  {| aiName := aiName p; apiKey := apiKey p; model := model p;
     priority := priority p; originalPriority := originalPriority p;
     lastFailureTime := t; lastFailureType := k;
     parameters := parameters p |}.

(** ** The store of provider objects *)

Abbreviation ref := nat (only parsing).
Abbreviation Store := (ref → Provider) (only parsing).

Definition prio (σ : Store) (r : ref) : jsnum := priority (σ r).

(** ** priority.ts *)

(** The comparator [(a, b) => a.priority - b.priority]. *)
Definition compare_priority (σ : Store) (a b : ref) : jsnum :=
  js_sub (prio σ a) (prio σ b).

(** [Array.prototype.sort] is stable; it is modelled by a stable
    insertion sort, which for a consistent comparator returns the same
    array as any other stable sort.  The comparator is consistent when
    every priority is a number.  With an [undefined] or [NaN] priority
    it is not, the language leaves the order to the engine, and this
    function stands for the engine's sort only as a rearrangement:
    statements about the order it gives carry the hypothesis that the
    priorities are numbers. *)
Fixpoint insert_provider (σ : Store) (x : ref) (l : list ref) : list ref :=
  match l with
  | [] => [x]
  | y :: l' =>
      if js_positive (compare_priority σ x y)
      then y :: insert_provider σ x l'
      else x :: y :: l'
  end.

Fixpoint sortProviders (σ : Store) (l : list ref) : list ref :=
  match l with
  | [] => []
  | x :: l' => insert_provider σ x (sortProviders σ l')
  end.

(** [provider.priority += providers.length]. *)
Definition bump (n : nat) (p : Provider) : Provider :=
  set_priority (js_add (priority p) (Z.of_nat n)) p.

Definition updateProviderPriorities (σ : Store) (providers : list ref)
    (providersToUpdate : list ref) : Store * list ref :=
  let σ' :=
    foldl (fun s r => alter (bump (length providers)) r s)
          σ providersToUpdate in
  (σ', sortProviders σ' providers).

(** The body shared by both recovery functions. *)
Definition recover (p : Provider) : Provider :=
  set_failure None None (set_priority (originalPriority p) p).

(** [now] is the value [Date.now()] returns.  The guard
    [!provider.lastFailureTime || !provider.lastFailureType] is a
    truthiness test: an absent field and the number [0] both fail it;
    the two failure kinds are non-empty strings and always pass. *)
Definition checkAndRecoverPriority (now : Z) (options : Options)
    (p : Provider) : Provider :=
  match lastFailureTime p, lastFailureType p with
  | Some t, Some k =>
      if negb (truthy_num (Some t)) then p
      else
        let timeSinceFailure := now - t in
        let shouldRecover :=
          match k with
          | Retryable => retryableErrorTimeout options <? timeSinceFailure
          | NonRetryable =>
              nonRetryableErrorTimeout options <? timeSinceFailure
          end in
        if shouldRecover then recover p else p
  | _, _ => p
  end.

Definition recoverPriorityOnSuccess (p : Provider) : Provider :=
  match lastFailureTime p, lastFailureType p with
  | Some t, Some _ => if truthy_num (Some t) then recover p else p
  | _, _ => p
  end.

(** ** index.ts: the network boundary

    What one [fetch] did is an input: a parsed success payload (a JSON
    object), a response that was not [ok], or a thrown exception
    (network error, abort on timeout, unparsable body).  The request
    body of [generateRequestBody] goes out with the fetch and is read by
    nothing below. *)

Inductive FetchResult : Type :=
  | FetchOk (payload : gmap string Json)
  | FetchHttpError (status : Z) (errorObj : option Json) (detail : string)
  | FetchThrows (msg : string).

(** The exception [makeProviderCall] lets escape. *)
Record CaughtError : Type := mkCaughtError {
  caught_message : string;
  caught_statusCode : option Z;
  caught_errorBody : option Json
}.

Definition RETRYABLE_CODES : list Z := [429; 500].

(** [codes.includes(c)]. *)
Definition includes (codes : list Z) (c : Z) : bool :=
  bool_decide (c ∈ codes).

Definition dquote : string := String "034"%char EmptyString.

(** [detail] is the text of [errorObj?.error?.message || "Unknown error"]. *)
Definition makeProviderCall (options : Options) (p : Provider)
    (f : FetchResult) : gmap string Json + CaughtError :=
  match f with
  | FetchOk payload => inl payload
  | FetchHttpError status errorObj detail =>
      let isRetryable := includes (retryableCodes options) status in
      inr {| caught_message :=
               (if isRetryable then "Retryable" else "Non-retryable")
               +:+ " error for " +:+ dquote
               +:+ provider_string (aiName p) +:+ dquote +:+ ": "
               +:+ detail;
             caught_statusCode := Some status;
             caught_errorBody := errorObj |}
  | FetchThrows msg =>
      inr {| caught_message := msg;
             caught_statusCode := None;
             caught_errorBody := None |}
  end.

(** [statusCode ? retryableCodes.includes(statusCode) : false] and
    [error.message || "Unknown error"]. *)
Definition createAIError (options : Options) (p : Provider)
    (e : CaughtError) : AIError :=
  {| message :=
       match caught_message e with
       | EmptyString => "Unknown error"
       | m => m
       end;
     provider := aiName p;
     statusCode := caught_statusCode e;
     retryable :=
       match caught_statusCode e with
       | Some c =>
           if truthy_num (Some c)
           then includes (retryableCodes options) c
           else false
       | None => false
       end;
     errorBody := caught_errorBody e |}.

(** ** index.ts: the outgoing request *)

(** A value of the request body: JSON passed through from
    [provider.parameters] (or the model name, a JSON string), or the
    [messages] array of role and content pairs. *)
Inductive BodyValue : Type :=
  | VJson (j : Json)
  | VMessages (msgs : list (string * string)).

(** The body as the map of its own properties, which is what
    [JSON.stringify] sends.  [Object.assign(body, provider.parameters)]
    assigns every key of the parameters to the body; a parameters
    object, even an empty one, is truthy.  Assigning to the key
    [__proto__] runs the setter of [Object.prototype] and adds no
    property. *)
Definition generateRequestBody (p : Provider) (prompt : string)
    : gmap string BodyValue :=
  let body : gmap string BodyValue :=
    <["messages" := VMessages [("user", prompt)]]>
      (<["model" := VJson (JString (model p))]> ∅) in
  match parameters p with
  | Some ps => (VJson <$> delete "__proto__" ps) ∪ body
  | None => body
  end.

(** ** index.ts: the client *)

Record FallbackAI : Type := mkFallbackAI {
  store : Store;
  providers : list ref;
  options : Options
}.

Inductive Result (A : Type) : Type :=
  | Ok (a : A)
  | Thrown (msg : string).
Arguments Ok {A} a.
Arguments Thrown {A} msg.

Definition fill_options (o : FallbackAIOptions) : Options :=
  {| enablePriorityUpdates := default true (opt_enablePriorityUpdates o);
     timeout := default 30000 (opt_timeout o);
     retryableCodes := default RETRYABLE_CODES (opt_retryableCodes o);
     retryableErrorTimeout := default 300000 (opt_retryableErrorTimeout o);
     nonRetryableErrorTimeout :=
       default 1800000 (opt_nonRetryableErrorTimeout o) |}.

(** [{...provider, originalPriority: provider.originalPriority ?? provider.priority}] *)
Definition copy_provider (p : Provider) : Provider :=
  set_originalPriority (js_nullish (originalPriority p) (priority p)) p.

(** The constructor copies the given objects; the copies are the objects
    [0 .. n-1] of the store.  [construct] is the constructor's body for
    the non-empty array [p0 :: rest]. *)
Definition construct (p0 : Provider) (rest : list Provider)
    (o : FallbackAIOptions) : FallbackAI :=
  let input := p0 :: rest in
  let σ : Store := λ r, copy_provider (nth r input p0) in
  {| store := σ;
     providers := sortProviders σ (seq 0 (length input));
     options := fill_options o |}.

Definition constructor (input : list Provider) (o : FallbackAIOptions)
    : Result FallbackAI :=
  match input with
  | [] => Thrown "At least one provider must be specified"
  | p0 :: rest => Ok (construct p0 rest o)
  end.

(** [[...this.providers]]: a fresh array of the same references. *)
Definition getProviders (fa : FallbackAI) : list ref := providers fa.

(** [addProvider] receives a reference to an object of the store. *)
Definition addProvider (r : ref) (fa : FallbackAI) : FallbackAI :=
  {| store := store fa;
     providers := sortProviders (store fa) (providers fa ++ [r]);
     options := options fa |}.

(** [findIndex(p => p === provider)] followed by [splice(index, 1)]. *)
Fixpoint remove_first (r : ref) (l : list ref) : list ref :=
  match l with
  | [] => []
  | x :: l' => if decide (x = r) then l' else x :: remove_first r l'
  end.

Definition removeProvider (r : ref) (fa : FallbackAI) : FallbackAI :=
  {| store := store fa;
     providers := remove_first r (providers fa);
     options := options fa |}.

(** *** call *)

(** One iteration's observations: the clock when the recovery check
    runs, what the fetch did, the clock in the [catch] block. *)
Record Attempt : Type := mkAttempt {
  checked_at : Z;
  fetched : FetchResult;
  failed_at : Z
}.

(** The [i]-th entry describes the [i]-th iteration of the loop. *)
Definition World : Type := nat → Attempt.

Inductive Settled : Type :=
  | Resolved (response : gmap string Field)
  | Rejected (msg : string).

(** [attempts] counts the calls of [makeProviderCall]. *)
Record CallRun : Type := mkCallRun {
  after : FallbackAI;
  settled : Settled;
  attempts : nat
}.

Fixpoint join (sep : string) (l : list string) : string :=
  match l with
  | [] => EmptyString
  | [x] => x
  | x :: l' => x +:+ sep +:+ join sep l'
  end.

Definition error_line (e : AIError) : string :=
  provider_string (provider e) +:+ ": " +:+ message e.

Definition all_failed (errors : list AIError) : string :=
  "All providers failed. Errors: " +:+ join ", " (error_line <$> errors).

(** [{...response, provider: provider.aiName, ...(errors.length > 0 && { errors })}] *)
Definition annotate (response : gmap string Json) (a : AIProvider)
    (errors : list AIError) : gmap string Field :=
  let named := <["provider" := FProvider a]> (FRaw <$> response) in
  if (0 <? length errors)%nat
  then <["errors" := FErrors errors]> named
  else named.

(** The [catch] block. *)
Definition on_failure (options : Options) (now : Z) (r : ref)
    (error : CaughtError)
    (st : Store * list ref * list AIError)
    : Store * list ref * list AIError :=
  let '(σ, providersToUpdate, errors) := st in
  let aiError := createAIError options (σ r) error in
  let errors := errors ++ [aiError] in
  let providersToUpdate :=
    if negb (retryable aiError) && enablePriorityUpdates options
    then providersToUpdate ++ [r]
    else providersToUpdate in
  let σ :=
    alter (set_failure (Some now)
             (Some (if retryable aiError then Retryable else NonRetryable)))
          r σ in
  (σ, providersToUpdate, errors).

(** The [try] block after [makeProviderCall] has returned. *)
Definition on_success (all : list ref) (r : ref)
    (response : gmap string Json)
    (st : Store * list ref * list AIError)
    : Store * list ref * gmap string Field :=
  let '(σ, providersToUpdate, errors) := st in
  let σ :=
    if js_neq (originalPriority (σ r)) (priority (σ r))
    then alter recoverPriorityOnSuccess r σ
    else σ in
  let '(σ, all) :=
    if (0 <? length providersToUpdate)%nat
    then updateProviderPriorities σ all providersToUpdate
    else (σ, all) in
  (σ, all, annotate response (aiName (σ r)) errors).

(** The body of the [for (const provider of this.providers)] loop for
    provider [r], as the [i]-th iteration: either [call] returns
    ([inl]) or the loop goes on ([inr]). *)
Definition attempt (options : Options) (all : list ref) (w : World)
    (i : nat) (r : ref) (st : Store * list ref * list AIError)
    : (Store * list ref * gmap string Field)
      + (Store * list ref * list AIError) :=
  let '(σ, providersToUpdate, errors) := st in
  let σ :=
    alter (checkAndRecoverPriority (checked_at (w i)) options) r σ in
  match makeProviderCall options (σ r) (fetched (w i)) with
  | inl response =>
      inl (on_success all r response (σ, providersToUpdate, errors))
  | inr error =>
      inr (on_failure options (failed_at (w i)) r error
             (σ, providersToUpdate, errors))
  end.

Arguments attempt : simpl never.

(** The loop and the [throw] after it; [todo] is what is left of the
    array and [i] the number of attempts made so far. *)
Fixpoint call_loop (options : Options) (all : list ref) (w : World)
    (i : nat) (todo : list ref) (st : Store * list ref * list AIError)
    : Store * list ref * Settled * nat :=
  match todo with
  | [] => (st.1.1, all, Rejected (all_failed st.2), i)
  | r :: todo' =>
      match attempt options all w i r st with
      | inl (σ, all, result) => (σ, all, Resolved result, S i)
      | inr st' => call_loop options all w (S i) todo' st'
      end
  end.

Definition call (w : World) (prompt : string) (fa : FallbackAI) : CallRun :=
  match prompt with
  | EmptyString =>
      {| after := fa;
         settled := Rejected "Prompt must be a non-empty string";
         attempts := 0 |}
  | _ =>
      let '(σ, all, s, n) :=
        call_loop (options fa) (providers fa) w 0 (providers fa)
                  (store fa, [], []) in
      {| after := {| store := σ; providers := all; options := options fa |};
         settled := s;
         attempts := n |}
  end.

(** * Specification vocabulary *)

(** ** Order of the array *)

Definition prio_leb (σ : Store) (a b : ref) : bool :=
  match prio σ a, prio σ b with
  | Num x, Num y => x <=? y
  | _, _ => false
  end.

Definition prio_le (σ : Store) (a b : ref) : Prop := prio_leb σ a b = true.

(** The array is in ascending order by priority. *)
Definition ascending (σ : Store) (l : list ref) : Prop :=
  StronglySorted (prio_le σ) l.

(** Every priority read through the array is a number. *)
Definition numeric (σ : Store) (l : list ref) : Prop :=
  Forall (λ r, ∃ z, prio σ r = Num z) l.

(** ** Demotion *)

(** The store after the loop of [updateProviderPriorities]. *)
Definition demoted (n : nat) (σ : Store) (toDemote : list ref) : Store :=
  foldl (λ s r, alter (bump n) r s) σ toDemote.




(** ** Recovery and failure records *)

(** The recovery delay that applies to a failure kind. *)
Definition recovery_limit (o : Options) (k : FailureType) : Z :=
  match k with
  | Retryable => retryableErrorTimeout o
  | NonRetryable => nonRetryableErrorTimeout o
  end.

(** The fields no operation of the scheduler or of [call] writes. *)
Definition fixed_fields (p p' : Provider) : Prop :=
  aiName p' = aiName p
  ∧ apiKey p' = apiKey p
  ∧ model p' = model p
  ∧ originalPriority p' = originalPriority p
  ∧ parameters p' = parameters p.

(** [lastFailureTime] and [lastFailureType] are both present or both
    absent. *)
Definition paired (p : Provider) : Prop :=
  lastFailureTime p = None ↔ lastFailureType p = None.

Definition keeps_paired (p p' : Provider) : Prop := paired p → paired p'.

(** ** Prefixes of the loop *)

Definition fetch_ok (f : FetchResult) : bool :=
  match f with
  | FetchOk _ => true
  | _ => false
  end.

(** The loop state after the attempts on [tried] when all of them
    failed, starting with attempt number [i]; [None] when one of them
    succeeded. *)
Fixpoint after_failures (o : Options) (all : list ref) (w : World)
    (i : nat) (tried : list ref) (st : Store * list ref * list AIError)
    : option (Store * list ref * list AIError) :=
  match tried with
  | [] => Some st
  | r :: tried' =>
      match attempt o all w i r st with
      | inl _ => None
      | inr st' => after_failures o all w (S i) tried' st'
      end
  end.

(** ** Numbers in the priority fields *)

(** Both priority fields of the provider hold numbers. *)
Definition numbered (p : Provider) : Prop :=
  (∃ z, priority p = Num z) ∧ (∃ z, originalPriority p = Num z).

Definition keeps_numbered (p p' : Provider) : Prop :=
  numbered p → numbered p'.

(** The provider has a failure on record that the truthiness tests of
    the recovery functions see. *)
Definition failure_on_record (p : Provider) : Prop :=
  ∃ t k, lastFailureTime p = Some t ∧ t ≠ 0 ∧ lastFailureType p = Some k.

(** The failure kind the [catch] block records for an error. *)
Definition kind_of (ai : AIError) : FailureType :=
  if retryable ai then Retryable else NonRetryable.

(** * Example objects, clients and worlds *)

(** A provider as a caller writes it: only the required fields. *)
Definition plain (a : AIProvider) (p : Z) : Provider :=
  {| aiName := a; apiKey := "key"; model := "model";
     priority := Num p; originalPriority := Undefined;
     lastFailureTime := None; lastFailureType := None;
     parameters := None |}.

(** A provider the constructor has seen: [originalPriority] is set. *)
Definition configured (a : AIProvider) (p : Z) : Provider :=
  copy_provider (plain a p).


(** Objects [0], [1], [2] have priorities 1, 2, 3. *)
Definition narrow_store : Store :=
  λ r, match r with
       | O => configured GROQ 1
       | 1%nat => configured GEMINI 2
       | _ => configured MISTRAL 3
       end.

(** Priority 3, configured as 1, failed non-retryably at time 1000. *)
Definition demoted_provider : Provider :=
  set_failure (Some 1000) (Some NonRetryable)
    (set_priority (Num 3) (configured GROQ 1)).

Definition no_options : FallbackAIOptions :=
  mkFallbackAIOptions None None None None None.

(** Objects [0] and [2] have priority 1 and object [1] has priority 2. *)
Definition tied_store : Store :=
  λ r, match r with
       | 1%nat => configured GEMINI 2
       | _ => configured GROQ 1
       end.

(** The options of a client built without any. *)
Definition default_options : Options := fill_options no_options.

(** A response with status 429. *)
Definition rate_limited : FetchResult :=
  FetchHttpError 429 None "Rate limited".

Definition bad_request : FetchResult :=
  FetchHttpError 400 None "Bad request".

Definition greeting : gmap string Json := {[ "id" := JString "chat-1" ]}.

(** A payload that has an [errors] field of its own. *)
Definition partial_answer : gmap string Json :=
  {[ "id" := JString "chat-2"; "errors" := JOther "[]" ]}.

(** At time [now], the first fetch gets [first] and every later one
    succeeds. *)
Definition first_then_ok (now : Z) (first : FetchResult) : World :=
  λ i, match i with
       | O => mkAttempt now first now
       | _ => mkAttempt now (FetchOk greeting) now
       end.

(** At time [now], every fetch gets [f]. *)
Definition always (now : Z) (f : FetchResult) : World :=
  λ _, mkAttempt now f now.

(** [new FallbackAI([groq at priority 1, gemini at priority 2])]: groq
    is object [0] and gemini is object [1]. *)
Definition groq_gemini : FallbackAI :=
  construct (plain GROQ 1) [plain GEMINI 2] no_options.

(** Groq at its configured priority 1 with a retryable failure recorded
    at time 1000. *)
Definition groq_after_rate_limit : FallbackAI :=
  after (call (first_then_ok 1000 rate_limited) "Hello" groq_gemini).

(** Groq failed with status 400 at time 1000 and gemini answered: groq
    is demoted to priority 3 and stands behind gemini. *)
Definition groq_demoted : FallbackAI :=
  after (call (first_then_ok 1000 bad_request) "Hello" groq_gemini).

(** At time 2000000 gemini is rate-limited and groq, whose recovery
    delay has passed, answers. *)
Definition groq_recovered : FallbackAI :=
  after (call (first_then_ok 2000000 rate_limited) "Hello" groq_demoted).

(** The caller creates object [r] with contents [p]. *)
Definition with_object (r : ref) (p : Provider) (fa : FallbackAI)
    : FallbackAI :=
  {| store := <[r := p]> (store fa);
     providers := providers fa;
     options := options fa |}.

(** [addProvider({aiName: mistral, priority: 0, ...})] on the client of
    groq and gemini; the new object is object [2]. *)
Definition with_mistral : FallbackAI :=
  addProvider 2 (with_object 2 (plain MISTRAL 0) groq_gemini).

(** Mistral is rate-limited at time 1000, and a call at time 400000,
    past the recovery delay, tries it again. *)
Definition mistral_rechecked : FallbackAI :=
  after (call (always 400000 (FetchOk greeting)) "Hello"
           (after (call (first_then_ok 1000 rate_limited) "Hello"
                     with_mistral))).

(** A provider whose parameters name another model. *)
Definition overriding : Provider :=
  {| aiName := GROQ; apiKey := "key"; model := "llama";
     priority := Num 1; originalPriority := Undefined;
     lastFailureTime := None; lastFailureType := None;
     parameters := Some {[ "model" := JString "mixtral" ]} |}.

(** * Properties *)

(** ** Arithmetic *)



(** Above [2^53] an odd sum is rounded away: [2^53 + 1] gives [2^53],
    and [2^54 + 2] gives [2^54]. *)
Example js_add_rounds :
  js_add (Num two53) 1 = Num two53
  ∧ js_add (Num (2 * two53)) 2 = Num (2 * two53)
  ∧ js_add (Num (two53 + 2)) 1 = Num (two53 + 4).
Proof. split_and!; reflexivity. Qed.

(** ** Ascending order *)

Global Instance prio_le_dec σ a b : Decision (prio_le σ a b).
Proof. unfold prio_le. apply _. Defined.

Global Instance ascending_dec σ l : Decision (ascending σ l).
Proof. unfold ascending. apply _. Defined.

Section sorting.
Variable σ : Store.

Lemma prio_le_spec a b x y :
  prio σ a = Num x → prio σ b = Num y → prio_le σ a b ↔ x ≤ y.
Proof.
  intros Ha Hb. unfold prio_le, prio_leb. rewrite Ha, Hb.
  apply Z.leb_le.
Qed.

Lemma prio_le_trans a b c : prio_le σ a b → prio_le σ b c → prio_le σ a c.
Proof.
  unfold prio_le, prio_leb.
  destruct (prio σ a), (prio σ b), (prio σ c); try discriminate.
  rewrite !Z.leb_le. lia.
Qed.

Lemma insert_provider_perm x l : insert_provider σ x l ≡ₚ x :: l.
Proof.
  induction l as [|y l IH]; simpl; [done|].
  destruct (js_positive _); [|done].
  rewrite IH. apply Permutation_swap.
Qed.

Lemma sortProviders_perm l : sortProviders σ l ≡ₚ l.
Proof.
  induction l as [|x l IH]; simpl; [done|].
  by rewrite insert_provider_perm, IH.
Qed.

Lemma sortProviders_length l : length (sortProviders σ l) = length l.
Proof. by rewrite sortProviders_perm. Qed.


Lemma numeric_perm l l' : l ≡ₚ l' → numeric σ l → numeric σ l'.
Proof. unfold numeric. by intros ->. Qed.

Lemma insert_provider_ascending x l :
  (∃ z, prio σ x = Num z) → numeric σ l →
  ascending σ l → ascending σ (insert_provider σ x l).
Proof.
  intros [zx Hx]. unfold ascending.
  induction l as [|y l IH]; intros Hnum Hl; simpl.
  { repeat constructor. }
  apply Forall_cons in Hnum as [[zy Hy] Hnum].
  apply StronglySorted_cons in Hl as [Hyl Hl].
  unfold compare_priority. rewrite Hx, Hy. simpl.
  destruct (Z.ltb_spec 0 (zx - zy)) as [Hgt|Hle].
  - apply StronglySorted_cons. split; [|by apply IH].
    rewrite insert_provider_perm. apply Forall_cons. split; [|done].
    apply (prio_le_spec y x zy zx); [done..|lia].
  - assert (prio_le σ x y) as Hxy
      by (apply (prio_le_spec x y zx zy); [done..|lia]).
    apply StronglySorted_cons. split.
    + apply Forall_cons. split; [done|].
      eapply Forall_impl; [exact Hyl|].
      intros c Hc. by eapply prio_le_trans.
    + by apply StronglySorted_cons.
Qed.

(** [sortProviders] leaves an array of numeric priorities ascending. *)
Lemma sortProviders_ascending l :
  numeric σ l → ascending σ (sortProviders σ l).
Proof.
  induction l as [|x l IH]; intros Hnum; simpl.
  { constructor. }
  apply Forall_cons in Hnum as [Hx Hnum].
  apply insert_provider_ascending; [done| |by apply IH].
  eapply numeric_perm; [|exact Hnum]. symmetry. apply sortProviders_perm.
Qed.

End sorting.

(** ** Demotion, object by object *)

Section demotion.
Variable n : nat.

Lemma demoted_other σ toDemote r :
  r ∉ toDemote → demoted n σ toDemote r = σ r.
Proof.
  revert σ. induction toDemote as [|d l IH]; intros σ Hr; [done|].
  apply not_elem_of_cons in Hr as [Hne Hr].
  change (demoted n σ (d :: l)) with (demoted n (alter (bump n) d σ) l).
  rewrite IH by done. by rewrite fn_lookup_alter_ne.
Qed.

Lemma demoted_once σ toDemote d :
  NoDup toDemote → d ∈ toDemote →
  demoted n σ toDemote d = bump n (σ d).
Proof.
  revert σ. induction toDemote as [|x l IH]; intros σ Hnd Hd.
  { by apply elem_of_nil in Hd. }
  apply NoDup_cons in Hnd as [Hx Hnd].
  change (demoted n σ (x :: l)) with (demoted n (alter (bump n) x σ) l).
  destruct (decide (d = x)) as [->|Hne].
  - rewrite demoted_other by done. apply fn_lookup_alter.
  - apply elem_of_cons in Hd as [?|Hd]; [done|].
    rewrite IH by done. by rewrite fn_lookup_alter_ne.
Qed.

(** Demotion writes nothing but [priority]. *)
Lemma demoted_frame σ toDemote r :
  originalPriority (demoted n σ toDemote r) = originalPriority (σ r)
  ∧ lastFailureTime (demoted n σ toDemote r) = lastFailureTime (σ r)
  ∧ lastFailureType (demoted n σ toDemote r) = lastFailureType (σ r)
  ∧ aiName (demoted n σ toDemote r) = aiName (σ r).
Proof.
  revert σ. induction toDemote as [|x l IH]; intros σ; [done|].
  change (demoted n σ (x :: l)) with (demoted n (alter (bump n) x σ) l).
  destruct (IH (alter (bump n) x σ)) as (-> & -> & -> & ->).
  destruct (decide (x = r)) as [->|Hne].
  - by rewrite fn_lookup_alter.
  - by rewrite fn_lookup_alter_ne.
Qed.

End demotion.

Lemma updateProviderPriorities_unfold σ l toDemote :
  updateProviderPriorities σ l toDemote =
  (demoted (length l) σ toDemote,
   sortProviders (demoted (length l) σ toDemote) l).
Proof. reflexivity. Qed.


(** ** C4 *)




(** ** C5 *)

(** C5: [checkAndRecoverPriority] returns a provider without a recorded
    failure as it is (a failure field is absent; the guard, a truthiness
    test, also reads a timestamp of 0 as absent).  For a provider with a
    recorded failure (a timestamp the clock gave, which is never 0, and
    a failure kind) it sets [priority] to [originalPriority] and clears
    both failure fields, leaving every other field, when the time since
    the failure is strictly greater than the delay of the failure kind,
    and returns the provider as it is otherwise. *)
Theorem checkAndRecoverPriority_spec (now : Z) (o : Options) (p : Provider) :
  (lastFailureTime p = None ∨ lastFailureTime p = Some 0
   ∨ lastFailureType p = None →
     checkAndRecoverPriority now o p = p)
  ∧ (∀ t k, lastFailureTime p = Some t → lastFailureType p = Some k →
       t ≠ 0 →
       (recovery_limit o k < now - t →
          priority (checkAndRecoverPriority now o p) = originalPriority p
          ∧ lastFailureTime (checkAndRecoverPriority now o p) = None
          ∧ lastFailureType (checkAndRecoverPriority now o p) = None
          ∧ originalPriority (checkAndRecoverPriority now o p)
              = originalPriority p
          ∧ aiName (checkAndRecoverPriority now o p) = aiName p
          ∧ apiKey (checkAndRecoverPriority now o p) = apiKey p
          ∧ model (checkAndRecoverPriority now o p) = model p
          ∧ parameters (checkAndRecoverPriority now o p) = parameters p)
       ∧ (now - t ≤ recovery_limit o k →
            checkAndRecoverPriority now o p = p)).
Proof.
  unfold checkAndRecoverPriority. split.
  - intros [-> | [-> | ->]]; [done| |].
    + by destruct (lastFailureType p).
    + by destruct (lastFailureTime p).
  - intros t k -> -> Ht. simpl.
    destruct (Z.eqb_spec t 0) as [?|_]; [done|]. simpl.
    split; intros Hlim.
    + destruct k; simpl in *;
        (destruct (_ <? now - t) eqn:E; [done|apply Z.ltb_ge in E; lia]).
    + destruct k; simpl in *;
        (destruct (_ <? now - t) eqn:E; [apply Z.ltb_lt in E; lia|done]).
Qed.

(** C5 witness: thirty-three minutes after the failure the demoted
    provider is back at priority 1 with no failure recorded; one second
    after the failure it is unchanged. *)
Lemma checkAndRecoverPriority_spec_witness :
  (priority (checkAndRecoverPriority 2000000 default_options demoted_provider)
     = Num 1
   ∧ lastFailureTime
       (checkAndRecoverPriority 2000000 default_options demoted_provider)
     = None)
  ∧ checkAndRecoverPriority 2000 default_options demoted_provider
    = demoted_provider.
Proof.
  split.
  - destruct (checkAndRecoverPriority_spec 2000000 default_options
                demoted_provider) as [_ H].
    destruct (H 1000 NonRetryable) as [Hrec _];
      [reflexivity|reflexivity|lia|].
    destruct Hrec as (Hp & Ht & _); [simpl; lia|].
    split; [exact Hp|exact Ht].
  - destruct (checkAndRecoverPriority_spec 2000 default_options
                demoted_provider) as [_ H].
    destruct (H 1000 NonRetryable) as [_ Hkeep];
      [reflexivity|reflexivity|lia|].
    apply Hkeep. simpl. lia.
Defined.

(** ** C6 *)

(** C6: the error built for a failed provider call is retryable exactly
    when the failure carries a status code that is in
    [options.retryableCodes]; a thrown exception (network error, abort)
    carries no status code and is not retryable.  HTTP status codes are
    never 0. *)
Theorem classification (o : Options) (p : Provider) (f : FetchResult)
    (e : CaughtError) :
  makeProviderCall o p f = inr e →
  (∀ status errorObj detail,
     f = FetchHttpError status errorObj detail → status ≠ 0) →
  (retryable (createAIError o p e) = true
     ↔ ∃ c, statusCode (createAIError o p e) = Some c ∧ c ∈ retryableCodes o)
  ∧ (statusCode (createAIError o p e) = None →
       retryable (createAIError o p e) = false)
  ∧ (∀ status errorObj detail,
       f = FetchHttpError status errorObj detail →
       statusCode (createAIError o p e) = Some status)
  ∧ (∀ msg, f = FetchThrows msg →
       statusCode (createAIError o p e) = None
       ∧ retryable (createAIError o p e) = false).
Proof.
  intros Hcall Hstatus. unfold createAIError. simpl.
  destruct f as [payload|status errorObj detail|msg]; simpl in Hcall;
    [discriminate| |]; injection Hcall as <-; simpl.
  - specialize (Hstatus status errorObj detail eq_refl).
    destruct (Z.eqb_spec status 0) as [?|_]; [done|]. simpl.
    unfold includes. rewrite bool_decide_eq_true.
    split_and!; [|done|by intros ??? [= -> _ _]|done].
    split; [eauto|]. by intros (c & [= ->] & Hc).
  - split_and!; [|done|done|done].
    split; [done|]. by intros (c & ? & _).
Qed.

(** C6 witness: with the default codes, status 429 is retryable. *)
Lemma classification_witness :
  ∃ e, makeProviderCall default_options (configured GROQ 1) rate_limited
         = inr e
       ∧ retryable (createAIError default_options (configured GROQ 1) e)
         = true.
Proof.
  eexists. split; [reflexivity|].
  eapply (classification default_options (configured GROQ 1) rate_limited).
  - reflexivity.
  - intros status errorObj detail [= <- _ _]. lia.
  - exists 429. split; [reflexivity|]. apply list_elem_of_here.
Defined.

(** ** What every operation leaves alone *)

Global Instance fixed_fields_refl : Reflexive fixed_fields.
Proof. by intros p. Qed.

Global Instance fixed_fields_trans : Transitive fixed_fields.
Proof.
  intros p1 p2 p3 (? & ? & ? & ? & ?) (? & ? & ? & ? & ?).
  unfold fixed_fields. split_and!; congruence.
Qed.

Global Instance keeps_paired_refl : Reflexive keeps_paired.
Proof. intros p H. exact H. Qed.

Global Instance keeps_paired_trans : Transitive keeps_paired.
Proof. intros p1 p2 p3 H12 H23 H. by apply H23, H12. Qed.

Lemma recover_fixed p : fixed_fields p (recover p).
Proof. done. Qed.

Lemma checkAndRecoverPriority_cases now o p :
  checkAndRecoverPriority now o p = p
  ∨ checkAndRecoverPriority now o p = recover p.
Proof.
  unfold checkAndRecoverPriority.
  destruct (lastFailureTime p), (lastFailureType p) as [[]|]; auto;
    destruct (negb _); auto; simpl; destruct (_ <? _); auto.
Qed.

Lemma recoverPriorityOnSuccess_cases p :
  recoverPriorityOnSuccess p = p ∨ recoverPriorityOnSuccess p = recover p.
Proof.
  unfold recoverPriorityOnSuccess.
  destruct (lastFailureTime p), (lastFailureType p); auto.
  destruct (truthy_num _); auto.
Qed.

(** Within the delay the recovery check changes nothing. *)
Lemma checkAndRecoverPriority_within now o p t k :
  lastFailureTime p = Some t → lastFailureType p = Some k →
  now - t ≤ recovery_limit o k →
  checkAndRecoverPriority now o p = p.
Proof.
  intros Ht Hk Hlim. unfold checkAndRecoverPriority. rewrite Ht, Hk.
  destruct (negb _); [done|]. simpl.
  destruct k; simpl in Hlim;
    (destruct (_ <? now - t) eqn:E; [apply Z.ltb_lt in E; lia|done]).
Qed.

(** A provider at its configured priority is still there after the
    recovery check. *)
Lemma checkAndRecoverPriority_at_original now o p z :
  priority p = Num z → originalPriority p = Num z →
  js_neq (originalPriority (checkAndRecoverPriority now o p))
         (priority (checkAndRecoverPriority now o p)) = false.
Proof.
  intros Hp Ho.
  destruct (checkAndRecoverPriority_cases now o p) as [-> | ->]; simpl;
    rewrite ?Hp, Ho; simpl; by rewrite Z.eqb_refl.
Qed.

Lemma call_loop_cons o all w i r todo st :
  call_loop o all w i (r :: todo) st =
  match attempt o all w i r st with
  | inl (σ, all, result) => (σ, all, Resolved result, S i)
  | inr st' => call_loop o all w (S i) todo st'
  end.
Proof. reflexivity. Qed.

Section store_relation.
Context (R : relation Provider) `{!Reflexive R, !Transitive R}.
Hypothesis R_check : ∀ now o p, R p (checkAndRecoverPriority now o p).
Hypothesis R_success : ∀ p, R p (recoverPriorityOnSuccess p).
Hypothesis R_failure : ∀ t k p, R p (set_failure (Some t) (Some k) p).
Hypothesis R_bump : ∀ n p, R p (bump n p).

Lemma alter_rel (f : Provider → Provider) r (σ : Store) x :
  (∀ p, R p (f p)) → R (σ x) (alter f r σ x).
Proof.
  intros Hf. destruct (decide (r = x)) as [->|Hne].
  - rewrite fn_lookup_alter. apply Hf.
  - by rewrite fn_lookup_alter_ne.
Qed.

Lemma demoted_rel n (σ : Store) l x : R (σ x) (demoted n σ l x).
Proof.
  revert σ. induction l as [|d l IH]; intros σ; [done|].
  change (demoted n σ (d :: l)) with (demoted n (alter (bump n) d σ) l).
  etrans; [|apply IH]. apply alter_rel, R_bump.
Qed.

Lemma on_failure_rel o now r e (σ : Store) q errs x :
  R (σ x) ((on_failure o now r e (σ, q, errs)).1.1 x).
Proof. simpl. apply alter_rel, R_failure. Qed.

Lemma on_success_rel all r payload (σ : Store) q errs x :
  R (σ x) ((on_success all r payload (σ, q, errs)).1.1 x).
Proof.
  unfold on_success.
  set (σ1 := if js_neq _ _ then _ else σ).
  assert (R (σ x) (σ1 x)) as H1.
  { subst σ1. destruct (js_neq _ _); [|done]. by apply alter_rel. }
  destruct (0 <? length q)%nat; simpl; [|done].
  etrans; [exact H1|]. apply demoted_rel.
Qed.

Lemma attempt_rel o all w i r (σ : Store) q errs x :
  match attempt o all w i r (σ, q, errs) with
  | inl fin => R (σ x) (fin.1.1 x)
  | inr st => R (σ x) (st.1.1 x)
  end.
Proof.
  unfold attempt.
  set (σ1 := alter _ r σ).
  assert (R (σ x) (σ1 x)) as H1 by (by apply alter_rel).
  destruct (makeProviderCall _ _ _) as [payload|e].
  - etrans; [exact H1|]. apply on_success_rel.
  - etrans; [exact H1|]. apply on_failure_rel.
Qed.

Lemma call_loop_rel o all w todo i (σ : Store) q errs x :
  R (σ x) ((call_loop o all w i todo (σ, q, errs)).1.1.1 x).
Proof.
  revert i σ q errs.
  induction todo as [|r todo IH]; intros i σ q errs; [done|].
  rewrite call_loop_cons.
  pose proof (attempt_rel o all w i r σ q errs x) as Hstep.
  destruct (attempt _ _ _ _ _ _) as [[[σ' all'] resp]|[[σ' q'] errs']];
    simpl in *; [done|].
  etrans; [exact Hstep|]. apply IH.
Qed.

Lemma call_rel w prompt fa x :
  R (store fa x) (store (after (call w prompt fa)) x).
Proof.
  unfold call. destruct prompt as [|c prompt]; [done|].
  pose proof (call_loop_rel (options fa) (providers fa) w (providers fa)
                0 (store fa) [] [] x) as H.
  by destruct (call_loop _ _ _ _ _ _) as [[[σ' all'] s] n].
Qed.
End store_relation.

Lemma checkAndRecoverPriority_fixed now o p :
  fixed_fields p (checkAndRecoverPriority now o p).
Proof. by destruct (checkAndRecoverPriority_cases now o p) as [-> | ->]. Qed.

Lemma recoverPriorityOnSuccess_fixed p :
  fixed_fields p (recoverPriorityOnSuccess p).
Proof. by destruct (recoverPriorityOnSuccess_cases p) as [-> | ->]. Qed.

Lemma checkAndRecoverPriority_paired now o p :
  keeps_paired p (checkAndRecoverPriority now o p).
Proof. by destruct (checkAndRecoverPriority_cases now o p) as [-> | ->]. Qed.

Lemma recoverPriorityOnSuccess_paired p :
  keeps_paired p (recoverPriorityOnSuccess p).
Proof. by destruct (recoverPriorityOnSuccess_cases p) as [-> | ->]. Qed.

(** No call changes [aiName], [apiKey], [model], [originalPriority] or
    [parameters] of any provider. *)
Lemma call_fixed w prompt fa x :
  fixed_fields (store fa x) (store (after (call w prompt fa)) x).
Proof.
  apply call_rel; try apply _; try done.
  - apply checkAndRecoverPriority_fixed.
  - apply recoverPriorityOnSuccess_fixed.
Qed.

(** ** The loop, iteration by iteration *)

Lemma makeProviderCall_inl o p f payload :
  makeProviderCall o p f = inl payload ↔ f = FetchOk payload.
Proof. destruct f; simpl; split; congruence. Qed.

Lemma makeProviderCall_inr o p f :
  fetch_ok f = false → ∃ e, makeProviderCall o p f = inr e.
Proof. destruct f; simpl; [done|eauto..]. Qed.

Lemma attempt_success o all w i r (σ : Store) q errs payload :
  fetched (w i) = FetchOk payload →
  attempt o all w i r (σ, q, errs) =
  inl (on_success all r payload
         (alter (checkAndRecoverPriority (checked_at (w i)) o) r σ, q, errs)).
Proof. intros Hf. unfold attempt. by rewrite Hf. Qed.

Lemma attempt_failure o all w i r (σ : Store) q errs :
  fetch_ok (fetched (w i)) = false →
  ∃ e,
    makeProviderCall o
      (checkAndRecoverPriority (checked_at (w i)) o (σ r)) (fetched (w i))
      = inr e
    ∧ attempt o all w i r (σ, q, errs) =
      inr (on_failure o (failed_at (w i)) r e
             (alter (checkAndRecoverPriority (checked_at (w i)) o) r σ,
              q, errs)).
Proof.
  intros Hf. unfold attempt. rewrite fn_lookup_alter.
  destruct (makeProviderCall_inr o
              (checkAndRecoverPriority (checked_at (w i)) o (σ r))
              _ Hf) as [e He].
  exists e. by rewrite He.
Qed.

Lemma attempt_inl_inv o all w i r st fin :
  attempt o all w i r st = inl fin →
  ∃ payload, fetched (w i) = FetchOk payload.
Proof.
  destruct st as [[σ q] errs]. unfold attempt.
  destruct (makeProviderCall _ _ _) as [payload|e] eqn:E; [|done].
  intros _. exists payload. by eapply makeProviderCall_inl.
Qed.

Lemma attempt_inr_inv o all w i r st st' :
  attempt o all w i r st = inr st' → fetch_ok (fetched (w i)) = false.
Proof.
  destruct st as [[σ q] errs]. unfold attempt.
  destruct (makeProviderCall _ _ _) as [payload|e] eqn:E; [done|].
  intros _. destruct (fetched (w i)); [discriminate|done..].
Qed.

Lemma call_loop_app o all w l1 l2 i st st' :
  after_failures o all w i l1 st = Some st' →
  call_loop o all w i (l1 ++ l2) st
  = call_loop o all w (i + length l1) l2 st'.
Proof.
  revert i st. induction l1 as [|r l1 IH]; intros i st H.
  { injection H as <-. simpl. by rewrite Nat.add_0_r. }
  simpl app. rewrite call_loop_cons. simpl in H.
  destruct (attempt o all w i r st) as [fin|st1]; [done|].
  rewrite (IH _ _ H). f_equal. simpl. lia.
Qed.

Lemma after_failures_total o all w l1 i st :
  (∀ j, (j < length l1)%nat → fetch_ok (fetched (w (i + j)%nat)) = false) →
  is_Some (after_failures o all w i l1 st).
Proof.
  revert i st. induction l1 as [|r l1 IH]; intros i st H; [by eexists|].
  simpl. destruct st as [[σ q] errs].
  destruct (attempt_failure o all w i r σ q errs) as (e & _ & ->).
  { specialize (H 0%nat). rewrite Nat.add_0_r in H. apply H. simpl. lia. }
  apply IH. intros j Hj.
  replace (S i + j)%nat with (i + S j)%nat by lia. apply H. simpl. lia.
Qed.

Lemma after_failures_failed o all w l1 i st st' :
  after_failures o all w i l1 st = Some st' →
  ∀ j, (j < length l1)%nat → fetch_ok (fetched (w (i + j)%nat)) = false.
Proof.
  revert i st. induction l1 as [|r l1 IH]; intros i st H j Hj.
  { simpl in Hj. lia. }
  simpl in H.
  destruct (attempt o all w i r st) as [fin|st1] eqn:E; [done|].
  destruct j as [|j].
  - rewrite Nat.add_0_r. by eapply attempt_inr_inv.
  - replace (i + S j)%nat with (S i + j)%nat by lia.
    eapply IH; [exact H|]. simpl in Hj. lia.
Qed.

(** A failed attempt on [r] touches no other object and queues nothing
    but [r]. *)
Lemma on_failure_frame o now r e (σ : Store) q errs σ1 q1 errs1 x :
  on_failure o now r e (σ, q, errs) = (σ1, q1, errs1) →
  x ≠ r → σ1 x = σ x.
Proof. intros [= <- _ _] Hx. by rewrite fn_lookup_alter_ne. Qed.

Lemma on_failure_queue o now r e (σ : Store) q errs σ1 q1 errs1 x :
  on_failure o now r e (σ, q, errs) = (σ1, q1, errs1) →
  x ∈ q1 → x ∈ q ∨ x = r.
Proof.
  intros [= _ <- _]. destruct (negb _ && _); [|auto].
  rewrite elem_of_app, list_elem_of_singleton. auto.
Qed.

(** What one failed attempt on [r] does, read off the next loop state. *)
Lemma attempt_inr_frame o all w i r (σ : Store) q errs σ1 q1 errs1 :
  attempt o all w i r (σ, q, errs) = inr (σ1, q1, errs1) →
  (∀ x, x ≠ r → σ1 x = σ x)
  ∧ (∀ x, x ∈ q1 → x ∈ q ∨ x = r).
Proof.
  intros E.
  pose proof (attempt_inr_inv _ _ _ _ _ _ _ E) as Hf.
  destruct (attempt_failure o all w i r σ q errs Hf) as (e & _ & E').
  rewrite E' in E. apply (inj inr) in E. split.
  - intros x Hx. rewrite (on_failure_frame _ _ _ _ _ _ _ _ _ _ _ E Hx).
    by rewrite fn_lookup_alter_ne.
  - intros x Hx. by eapply on_failure_queue.
Qed.

Lemma after_failures_frame o all w l1 i (σ : Store) q errs σ' q' errs' x :
  after_failures o all w i l1 (σ, q, errs) = Some (σ', q', errs') →
  x ∉ l1 → σ' x = σ x.
Proof.
  revert i σ q errs.
  induction l1 as [|r l1 IH]; intros i σ q errs H Hx.
  { by injection H as <- _ _. }
  apply not_elem_of_cons in Hx as [Hne Hx]. simpl in H.
  destruct (attempt o all w i r (σ, q, errs)) as [fin|[[σ1 q1] errs1]] eqn:E;
    [done|].
  rewrite (IH _ _ _ _ H Hx).
  by apply (attempt_inr_frame _ _ _ _ _ _ _ _ _ _ _ E).
Qed.

Lemma after_failures_queue o all w l1 i (σ : Store) q errs σ' q' errs' x :
  after_failures o all w i l1 (σ, q, errs) = Some (σ', q', errs') →
  x ∈ q' → x ∈ q ∨ x ∈ l1.
Proof.
  revert i σ q errs.
  induction l1 as [|r l1 IH]; intros i σ q errs H Hx.
  { injection H as _ <- _. auto. }
  simpl in H.
  destruct (attempt o all w i r (σ, q, errs)) as [fin|[[σ1 q1] errs1]] eqn:E;
    [done|].
  destruct (IH _ _ _ _ H Hx) as [Hq1|Hl1]; [|right; by right].
  destruct (attempt_inr_frame _ _ _ _ _ _ _ _ _ _ _ E) as [_ Hq].
  destruct (Hq x Hq1) as [?| ->]; [auto|right; by left].
Qed.

Lemma attempt_fixed o all w i r (σ : Store) q errs x :
  match attempt o all w i r (σ, q, errs) with
  | inl fin => fixed_fields (σ x) (fin.1.1 x)
  | inr st => fixed_fields (σ x) (st.1.1 x)
  end.
Proof.
  apply attempt_rel; try apply _; try done.
  - apply checkAndRecoverPriority_fixed.
  - apply recoverPriorityOnSuccess_fixed.
Qed.

Lemma attempt_inr_errors o all w i r (σ : Store) q errs σ1 q1 errs1 :
  attempt o all w i r (σ, q, errs) = inr (σ1, q1, errs1) →
  ∃ ai, errs1 = errs ++ [ai] ∧ provider ai = aiName (σ r).
Proof.
  intros E.
  pose proof (attempt_inr_inv _ _ _ _ _ _ _ E) as Hf.
  destruct (attempt_failure o all w i r σ q errs Hf) as (e & _ & E').
  rewrite E' in E. injection E as _ _ <-.
  eexists. split; [reflexivity|]. simpl. rewrite fn_lookup_alter.
  apply checkAndRecoverPriority_fixed.
Qed.

(** The errors collected over failed attempts: one per provider tried,
    in the order tried, each naming its provider. *)
Lemma after_failures_errors o all w l1 i (σ : Store) q errs σ' q' errs' :
  after_failures o all w i l1 (σ, q, errs) = Some (σ', q', errs') →
  ∃ es, errs' = errs ++ es ∧ length es = length l1
        ∧ ∀ j e, es !! j = Some e →
            ∃ rj, l1 !! j = Some rj ∧ provider e = aiName (σ rj).
Proof.
  revert i σ q errs.
  induction l1 as [|r l1 IH]; intros i σ q errs H.
  { injection H as _ _ <-. exists []. rewrite app_nil_r.
    split_and!; [done..|]. by intros j e ?. }
  simpl in H.
  pose proof (λ x, attempt_fixed o all w i r σ q errs x) as Hfix.
  destruct (attempt o all w i r (σ, q, errs)) as [fin|[[σ1 q1] errs1]] eqn:E;
    [done|].
  destruct (attempt_inr_errors _ _ _ _ _ _ _ _ _ _ _ E) as (ai & -> & Hai).
  destruct (IH _ _ _ _ H) as (es & -> & Hlen & Hes).
  exists (ai :: es). split_and!.
  - by rewrite <-app_assoc.
  - simpl. by rewrite Hlen.
  - intros [|j] e Hj; simpl in *.
    + injection Hj as <-. eauto.
    + destruct (Hes j e Hj) as (rj & Hrj & Hp).
      exists rj. split; [done|]. rewrite Hp. apply (Hfix rj).
Qed.

(** What the [try] block does to the store, seen from an object that is
    not queued for demotion. *)
Lemma on_success_store all r payload (σ : Store) q errs x :
  x ∉ q →
  (on_success all r payload (σ, q, errs)).1.1 x =
  (if js_neq (originalPriority (σ r)) (priority (σ r))
   then alter recoverPriorityOnSuccess r σ
   else σ) x.
Proof.
  intros Hx. unfold on_success.
  destruct (0 <? length q)%nat; [|done].
  rewrite updateProviderPriorities_unfold. simpl.
  by rewrite demoted_other.
Qed.

Lemma on_success_response all r payload (σ : Store) q errs :
  (on_success all r payload (σ, q, errs)).2 =
  annotate payload (aiName (σ r)) errs.
Proof.
  pose proof (λ R Hr Ht H2 H4, on_success_rel R (Reflexive0 := Hr)
                (Transitive0 := Ht) H2 H4 all r payload σ q errs r) as Hrel.
  specialize (Hrel fixed_fields _ _).
  unfold on_success in *.
  destruct (0 <? length q)%nat; simpl in *;
    f_equal; apply Hrel; try done; apply recoverPriorityOnSuccess_fixed.
Qed.

(** An object that is neither queued nor still to be tried is the same
    after the loop. *)
Lemma call_loop_untouched o all w todo i (σ : Store) q errs x :
  x ∉ todo → x ∉ q →
  (call_loop o all w i todo (σ, q, errs)).1.1.1 x = σ x.
Proof.
  revert i σ q errs.
  induction todo as [|r todo IH]; intros i σ q errs Hx Hq; [done|].
  apply not_elem_of_cons in Hx as [Hne Hx].
  rewrite call_loop_cons.
  destruct (attempt o all w i r (σ, q, errs))
    as [[[σ1 all1] resp]|[[σ1 q1] errs1]] eqn:E.
  - destruct (attempt_inl_inv _ _ _ _ _ _ _ E) as [payload Hf].
    rewrite (attempt_success _ _ _ _ _ _ _ _ _ Hf) in E.
    apply (inj inl) in E. simpl.
    transitivity
      ((on_success all r payload
          (alter (checkAndRecoverPriority (checked_at (w i)) o) r σ,
           q, errs)).1.1 x); [by rewrite E|].
    rewrite on_success_store by done.
    destruct (js_neq _ _); by rewrite !fn_lookup_alter_ne.
  - destruct (attempt_inr_frame _ _ _ _ _ _ _ _ _ _ _ E) as [Hσ Hq1].
    rewrite IH; [by apply Hσ|done|].
    intros Hin. destruct (Hq1 x Hin); by subst.
Qed.

(** ** A call, seen from one position of the array *)

Lemma call_projections w prompt fa :
  prompt ≠ EmptyString →
  let run := call_loop (options fa) (providers fa) w 0 (providers fa)
               (store fa, [], []) in
  store (after (call w prompt fa)) = run.1.1.1
  ∧ providers (after (call w prompt fa)) = run.1.1.2
  ∧ settled (call w prompt fa) = run.1.2
  ∧ attempts (call w prompt fa) = run.2.
Proof.
  intros Hp. unfold call. destruct prompt as [|c prompt]; [done|].
  simpl. by destruct (call_loop _ _ _ _ _ _) as [[[σ' all'] s] n].
Qed.

Lemma on_failure_unfold o now r e (σ : Store) q errs :
  on_failure o now r e (σ, q, errs) =
  (alter (set_failure (Some now)
            (Some (if retryable (createAIError o (σ r) e)
                   then Retryable else NonRetryable))) r σ,
   (if negb (retryable (createAIError o (σ r) e))
       && enablePriorityUpdates o
    then q ++ [r] else q),
   errs ++ [createAIError o (σ r) e]).
Proof. reflexivity. Qed.

(** When the first [k] fetches fail, the loop arrives at position [k]
    with the objects at later positions untouched and nothing queued but
    earlier providers. *)
Lemma call_loop_reaches o (σ : Store) all w k r :
  NoDup all → all !! k = Some r →
  (∀ j, (j < k)%nat → fetch_ok (fetched (w j)) = false) →
  ∃ σk qk errsk,
    after_failures o all w 0 (take k all) (σ, [], []) = Some (σk, qk, errsk)
    ∧ call_loop o all w 0 all (σ, [], [])
      = call_loop o all w k (r :: drop (S k) all) (σk, qk, errsk)
    ∧ σk r = σ r ∧ (r ∉ qk) ∧ (r ∉ drop (S k) all)
    ∧ length errsk = k.
Proof.
  intros Hnd Hk Hfail.
  pose proof (take_drop_middle all k r Hk) as Hsplit.
  pose proof (lookup_lt_Some _ _ _ Hk) as Hlt.
  assert (length (take k all) = k) as Hlen by (rewrite length_take; lia).
  assert ((r ∉ take k all) ∧ (r ∉ drop (S k) all)) as [Hl1 Hl2].
  { rewrite <-Hsplit in Hnd.
    apply NoDup_app in Hnd as (_ & Hdisj & Hnd2).
    apply NoDup_cons in Hnd2 as [Hr2 _]. split; [|done].
    intros Hin. apply (Hdisj r Hin). by left. }
  destruct (after_failures_total o all w (take k all) 0 (σ, [], []))
    as [[[σk qk] errsk] Hpre].
  { intros j Hj. rewrite Hlen in Hj. simpl. apply Hfail. lia. }
  exists σk, qk, errsk. split_and!; [done| | | |done|].
  - transitivity
      (call_loop o all w 0 (take k all ++ r :: drop (S k) all) (σ, [], []));
      [by rewrite Hsplit|].
    rewrite (call_loop_app _ _ _ _ _ _ _ _ Hpre). by rewrite Hlen.
  - by eapply after_failures_frame.
  - intros Hin.
    destruct (after_failures_queue _ _ _ _ _ _ _ _ _ _ _ _ Hpre Hin)
      as [Hnil|?]; [by apply elem_of_nil in Hnil|done].
  - destruct (after_failures_errors _ _ _ _ _ _ _ _ _ _ _ Hpre)
      as (es & -> & Hes & _).
    simpl. lia.
Qed.

(** ** C7 *)

(** C7: the [catch] block writes [lastFailureTime] and [lastFailureType]
    of the failed provider and nothing else: no priority changes, and
    the provider is queued for demotion exactly when the error is not
    retryable and [enablePriorityUpdates] is on.  Over a whole call on
    an array without repeated objects: a provider whose attempt fails
    with a retryable error (or with any error while priority updates
    are off) ends the call with the priority its recovery check left
    and with the failure recorded. *)
Theorem failure_handling_frame :
  (∀ o now r e (σ : Store) q errs,
     let ai := createAIError o (σ r) e in
     let '(σ', q', errs') := on_failure o now r e (σ, q, errs) in
     (∀ x, priority (σ' x) = priority (σ x))
     ∧ (∀ x, x ≠ r → σ' x = σ x)
     ∧ lastFailureTime (σ' r) = Some now
     ∧ lastFailureType (σ' r)
         = Some (if retryable ai then Retryable else NonRetryable)
     ∧ fixed_fields (σ r) (σ' r)
     ∧ q' = (if negb (retryable ai) && enablePriorityUpdates o
             then q ++ [r] else q)
     ∧ errs' = errs ++ [ai])
  ∧ (∀ fa w prompt k r e,
       let o := options fa in
       let checked :=
         checkAndRecoverPriority (checked_at (w k)) o (store fa r) in
       let ai := createAIError o checked e in
       prompt ≠ EmptyString →
       NoDup (providers fa) →
       providers fa !! k = Some r →
       (∀ j, (j < k)%nat → fetch_ok (fetched (w j)) = false) →
       makeProviderCall o checked (fetched (w k)) = inr e →
       retryable ai = true ∨ enablePriorityUpdates o = false →
       store (after (call w prompt fa)) r
         = set_failure (Some (failed_at (w k)))
             (Some (if retryable ai then Retryable else NonRetryable))
             checked
       ∧ priority (store (after (call w prompt fa)) r) = priority checked).
Proof.
  split.
  - intros o now r e σ q errs ai. rewrite on_failure_unfold. fold ai.
    split_and!; try done.
    + intros x. destruct (decide (r = x)) as [->|Hne].
      * by rewrite fn_lookup_alter.
      * by rewrite fn_lookup_alter_ne.
    + intros x Hx. by rewrite fn_lookup_alter_ne.
    + by rewrite fn_lookup_alter.
    + by rewrite fn_lookup_alter.
    + by rewrite fn_lookup_alter.
  - intros fa w prompt k r e o checked ai Hp Hnd Hk Hfail Hcall Hret.
    subst o.
    destruct (call_projections w prompt fa Hp) as (-> & _). simpl.
    destruct (call_loop_reaches (options fa) (store fa) (providers fa) w k r
                Hnd Hk Hfail)
      as (σk & qk & errsk & _ & -> & Hσk & Hqk & Hrest & _).
    rewrite call_loop_cons.
    assert (fetch_ok (fetched (w k)) = false) as Hf.
    { destruct (fetched (w k)); [discriminate Hcall|done..]. }
    destruct (attempt_failure (options fa) (providers fa) w k r σk qk errsk
                Hf) as (e' & Hcall' & ->).
    rewrite Hσk in Hcall'. fold checked in Hcall'.
    assert (e' = e) as -> by congruence.
    rewrite on_failure_unfold, fn_lookup_alter, Hσk.
    fold checked. fold ai.
    assert (negb (retryable ai) && enablePriorityUpdates (options fa)
            = false) as ->.
    { destruct Hret as [-> | ->]; [done|by rewrite andb_false_r]. }
    rewrite call_loop_untouched by done.
    rewrite fn_lookup_alter, fn_lookup_alter, Hσk. fold checked.
    by split.
Qed.

(** ** The example client *)

Lemma groq_gemini_constructed :
  constructor [plain GROQ 1; plain GEMINI 2] no_options = Ok groq_gemini.
Proof. reflexivity. Qed.

Lemma groq_gemini_providers : providers groq_gemini = [0; 1]%nat.
Proof. reflexivity. Qed.

Lemma NoDup_two (a b : ref) : a ≠ b → NoDup [a; b].
Proof.
  intros Hne. apply NoDup_cons. split; [|apply NoDup_singleton].
  by intros ->%list_elem_of_singleton.
Qed.

(** C7 witness: groq fails with status 429, gemini answers; groq keeps
    priority 1 and has the failure recorded. *)
Lemma failure_handling_frame_witness :
  let run := call (first_then_ok 1000 rate_limited) "Hello" groq_gemini in
  priority (store (after run) 0%nat) = Num 1
  ∧ lastFailureType (store (after run) 0%nat) = Some Retryable.
Proof.
  destruct failure_handling_frame as [_ H].
  destruct (H groq_gemini (first_then_ok 1000 rate_limited) "Hello" 0%nat
              0%nat
              (mkCaughtError
                 ("Retryable error for " +:+ dquote +:+ "groq" +:+ dquote
                  +:+ ": Rate limited")
                 (Some 429) None)) as [Hst Hprio].
  - discriminate.
  - apply NoDup_two. discriminate.
  - reflexivity.
  - intros j Hj. lia.
  - reflexivity.
  - left. reflexivity.
  - split; [exact Hprio|]. cbv zeta. rewrite Hst. reflexivity.
Defined.

(** ** C10 *)

(** C10: on an array without repeated objects, when a provider that
    stands at its configured priority and has a failure recorded answers
    a call, the call leaves it exactly as its recovery check left it:
    [recoverPriorityOnSuccess] is not invoked, so while the failure is
    younger than the recovery delay both failure fields stay as they
    were. *)
Theorem success_keeps_failure_record (fa : FallbackAI) (w : World)
    (prompt : string) (k : nat) (r : ref) (payload : gmap string Json)
    (z t : Z) (kind : FailureType) :
  prompt ≠ EmptyString →
  NoDup (providers fa) →
  providers fa !! k = Some r →
  (∀ j, (j < k)%nat → fetch_ok (fetched (w j)) = false) →
  fetched (w k) = FetchOk payload →
  priority (store fa r) = Num z →
  originalPriority (store fa r) = Num z →
  lastFailureTime (store fa r) = Some t →
  lastFailureType (store fa r) = Some kind →
  (∃ response, settled (call w prompt fa) = Resolved response)
  ∧ store (after (call w prompt fa)) r
    = checkAndRecoverPriority (checked_at (w k)) (options fa) (store fa r)
  ∧ (checked_at (w k) - t ≤ recovery_limit (options fa) kind →
       lastFailureTime (store (after (call w prompt fa)) r) = Some t
       ∧ lastFailureType (store (after (call w prompt fa)) r) = Some kind).
Proof.
  intros Hp Hnd Hk Hfail Hok Hprio Horig Ht Hkind.
  destruct (call_projections w prompt fa Hp) as (-> & _ & -> & _). simpl.
  destruct (call_loop_reaches (options fa) (store fa) (providers fa) w k r
              Hnd Hk Hfail)
    as (σk & qk & errsk & _ & -> & Hσk & Hqk & _ & _).
  rewrite call_loop_cons, (attempt_success _ _ _ _ _ _ _ _ _ Hok).
  pose proof (on_success_store (providers fa) r payload
                (alter (checkAndRecoverPriority (checked_at (w k))
                          (options fa)) r σk)
                qk errsk r Hqk) as Hstore.
  destruct (on_success _ _ _ _) as [[σ1 all1] response]. simpl in *.
  rewrite fn_lookup_alter, Hσk in Hstore.
  rewrite (checkAndRecoverPriority_at_original _ _ _ z Hprio Horig)
    in Hstore.
  rewrite fn_lookup_alter, Hσk in Hstore.
  split_and!; [by eexists|done|].
  intros Hlim. rewrite Hstore.
  by rewrite (checkAndRecoverPriority_within _ _ _ t kind Ht Hkind Hlim).
Qed.

(** C10 witness: one second after a rate-limit failure groq answers, and
    the failure is still on record. *)
Lemma success_keeps_failure_record_witness :
  lastFailureTime
    (store (after (call (always 2000 (FetchOk greeting)) "Hello"
                     groq_after_rate_limit)) 0%nat) = Some 1000
  ∧ lastFailureType
      (store (after (call (always 2000 (FetchOk greeting)) "Hello"
                       groq_after_rate_limit)) 0%nat) = Some Retryable.
Proof.
  eapply (success_keeps_failure_record groq_after_rate_limit
            (always 2000 (FetchOk greeting)) "Hello" 0%nat 0%nat greeting
            1 1000 Retryable).
  - discriminate.
  - apply NoDup_two. discriminate.
  - reflexivity.
  - intros j Hj. lia.
  - reflexivity.
  - reflexivity.
  - reflexivity.
  - reflexivity.
  - reflexivity.
  - vm_compute. discriminate.
Defined.

(** ** C8 *)

Lemma after_failures_fixed o all w l1 i (σ : Store) q errs σ' q' errs' x :
  after_failures o all w i l1 (σ, q, errs) = Some (σ', q', errs') →
  fixed_fields (σ x) (σ' x).
Proof.
  revert i σ q errs.
  induction l1 as [|r l1 IH]; intros i σ q errs H.
  { by injection H as <- _ _. }
  simpl in H.
  pose proof (attempt_fixed o all w i r σ q errs x) as Hfix.
  destruct (attempt o all w i r (σ, q, errs)) as [fin|[[σ1 q1] errs1]];
    [done|].
  etrans; [exact Hfix|]. by eapply IH.
Qed.

(** A loop that resolves has failed on a prefix of the array and then
    succeeded on the next provider. *)
Lemma call_loop_resolved o all w todo i st σ' all' response n :
  call_loop o all w i todo st = (σ', all', Resolved response, n) →
  ∃ k r payload σk qk errsk,
    todo !! k = Some r
    ∧ n = S (i + k)
    ∧ after_failures o all w i (take k todo) st = Some (σk, qk, errsk)
    ∧ fetched (w (i + k)%nat) = FetchOk payload
    ∧ on_success all r payload
        (alter (checkAndRecoverPriority (checked_at (w (i + k)%nat)) o) r σk,
         qk, errsk)
      = (σ', all', response).
Proof.
  revert i st. induction todo as [|r todo IH]; intros i st H; [done|].
  rewrite call_loop_cons in H.
  destruct (attempt o all w i r st)
    as [[[σ1 all1] resp1]|st1] eqn:E.
  - injection H as <- <- <- <-.
    destruct st as [[σ q] errs].
    destruct (attempt_inl_inv _ _ _ _ _ _ _ E) as [payload Hf].
    rewrite (attempt_success _ _ _ _ _ _ _ _ _ Hf) in E.
    apply (inj inl) in E.
    exists 0%nat, r, payload, σ, q, errs.
    rewrite Nat.add_0_r. by split_and!.
  - destruct (IH _ _ H)
      as (k & r' & payload & σk & qk & errsk & Hk & -> & Hpre & Hf & Hs).
    exists (S k), r', payload, σk, qk, errsk.
    replace (i + S k)%nat with (S i + k)%nat by lia.
    split_and!; try done. simpl. by rewrite E.
Qed.

Lemma annotate_provider payload a errs :
  annotate payload a errs !! "provider" = Some (FProvider a).
Proof.
  unfold annotate. destruct (0 <? length errs)%nat.
  - rewrite lookup_insert_ne by done. apply lookup_insert_eq.
  - apply lookup_insert_eq.
Qed.

Lemma annotate_other payload a errs key :
  key ≠ "provider" → key ≠ "errors" →
  annotate payload a errs !! key = FRaw <$> payload !! key.
Proof.
  intros H1 H2. unfold annotate. destruct (0 <? length errs)%nat.
  - by rewrite !lookup_insert_ne, lookup_fmap.
  - by rewrite lookup_insert_ne, lookup_fmap.
Qed.

Lemma annotate_errors payload a errs :
  annotate payload a errs !! "errors" =
  match errs with
  | [] => FRaw <$> payload !! "errors"
  | _ :: _ => Some (FErrors errs)
  end.
Proof.
  unfold annotate. destruct errs as [|e errs]; simpl.
  - by rewrite lookup_insert_ne, lookup_fmap.
  - apply lookup_insert_eq.
Qed.

(** C8, as amended: a call that resolves has made one attempt per
    provider of the array up to and including the first whose fetch
    succeeded, and resolves to that provider's payload with [provider]
    set to its name; every other field of the payload is passed on.
    When earlier providers failed, [errors] holds one error for each of
    them, in order.  When none failed the call adds no [errors] field:
    the result has one only if the payload itself has one.  This is the
    case, with exactly one attempt, as soon as the fetch of the array's
    first provider succeeds; and when the array is ascending that
    provider is the first in priority order. *)
Theorem call_resolved_shape (fa : FallbackAI) (w : World) (prompt : string)
    (response : gmap string Field) :
  settled (call w prompt fa) = Resolved response →
  ∃ k r payload errs,
    providers fa !! k = Some r
    ∧ fetched (w k) = FetchOk payload
    ∧ (∀ j, (j < k)%nat → fetch_ok (fetched (w j)) = false)
    ∧ attempts (call w prompt fa) = S k
    ∧ length errs = k
    ∧ (∀ j e, errs !! j = Some e →
         ∃ rj, providers fa !! j = Some rj
               ∧ provider e = aiName (store fa rj))
    ∧ response !! "provider" = Some (FProvider (aiName (store fa r)))
    ∧ (∀ key, key ≠ "provider" → key ≠ "errors" →
         response !! key = FRaw <$> payload !! key)
    ∧ response !! "errors"
      = match k with
        | O => FRaw <$> payload !! "errors"
        | S _ => Some (FErrors errs)
        end
    ∧ (fetch_ok (fetched (w 0%nat)) = true → k = 0%nat)
    ∧ (k = 0%nat → ascending (store fa) (providers fa) →
         ∀ j x, providers fa !! S j = Some x → prio_le (store fa) r x).
Proof.
  intros Hres.
  assert (prompt ≠ EmptyString) as Hp by (by intros ->).
  destruct (call_projections w prompt fa Hp) as (_ & _ & Hs & Hn).
  simpl in Hs, Hn. rewrite Hs in Hres. rewrite Hn. clear Hs Hn.
  destruct (call_loop _ _ _ _ _ _) as [[[σ' all'] s] n] eqn:Hloop.
  simpl in Hres. subst s.
  destruct (call_loop_resolved _ _ _ _ _ _ _ _ _ _ Hloop)
    as (k & r & payload & σk & qk & errsk & Hk & -> & Hpre & Hf & Hsucc).
  change (0 + k)%nat with k in *.
  pose proof (lookup_lt_Some _ _ _ Hk) as Hlt.
  assert (length (take k (providers fa)) = k) as Hlen
    by (rewrite length_take; lia).
  destruct (after_failures_errors _ _ _ _ _ _ _ _ _ _ _ Hpre)
    as (es & Hes & Hlenes & Hnames). simpl in Hes. subst errsk.
  pose proof (after_failures_fixed _ _ _ _ _ _ _ _ _ _ _ r Hpre) as Hfix.
  pose proof (on_success_response (providers fa) r payload
                (alter (checkAndRecoverPriority (checked_at (w k))
                          (options fa)) r σk) qk es) as Hresp.
  rewrite Hsucc in Hresp. simpl in Hresp. subst response.
  assert (aiName
            (alter (checkAndRecoverPriority (checked_at (w k)) (options fa))
               r σk r) = aiName (store fa r)) as ->.
  { rewrite fn_lookup_alter.
    transitivity (aiName (σk r)); [apply checkAndRecoverPriority_fixed|].
    apply Hfix. }
  exists k, r, payload, es. split_and!.
  - done.
  - done.
  - intros j Hj.
    apply (after_failures_failed _ _ _ _ _ _ _ Hpre j). lia.
  - done.
  - lia.
  - intros j e Hj. destruct (Hnames j e Hj) as (rj & Hrj & Hprov).
    exists rj. split; [|done].
    apply lookup_take_Some in Hrj. tauto.
  - apply annotate_provider.
  - intros key. apply annotate_other.
  - rewrite annotate_errors.
    destruct es, k; simpl in *; (done || lia).
  - intros Hok0. destruct k as [|k]; [done|].
    pose proof (after_failures_failed _ _ _ _ _ _ _ Hpre 0%nat) as Hf0.
    simpl in Hf0. rewrite Hf0 in Hok0; [done|lia].
  - intros -> Hasc j x Hx.
    destruct (providers fa) as [|r0 rest]; [done|].
    injection Hk as ->.
    apply StronglySorted_cons in Hasc as [Hhead _].
    rewrite Forall_forall in Hhead. apply Hhead.
    by eapply list_elem_of_lookup_2.
Qed.

(** C8 witness: groq is rate-limited and gemini answers; the result
    names gemini and carries one error, for groq. *)
Lemma call_resolved_shape_witness :
  ∃ response,
    settled (call (first_then_ok 1000 rate_limited) "Hello" groq_gemini)
      = Resolved response
    ∧ response !! "provider" = Some (FProvider GEMINI)
    ∧ ∃ e, response !! "errors" = Some (FErrors [e]) ∧ provider e = GROQ.
Proof.
  eexists. split; [reflexivity|].
  destruct (call_resolved_shape groq_gemini
              (first_then_ok 1000 rate_limited) "Hello" _ eq_refl)
    as (k & r & payload & errs & Hk & Hf & _ & _ & Hlen & Hnames
        & Hprov & _ & Herrs & _).
  destruct k as [|[|k]]; [discriminate Hf| |discriminate Hk].
  injection Hk as <-. split; [exact Hprov|].
  destruct errs as [|e [|e' errs]]; [discriminate Hlen| |discriminate Hlen].
  exists e. split; [exact Herrs|].
  destruct (Hnames 0%nat e eq_refl) as (rj & Hrj & ->).
  by injection Hrj as <-.
Defined.

(** C8 counterexample: the first provider answers, in one attempt, with
    a payload that has an [errors] field; no provider failed and yet the
    result has an [errors] field. *)
Lemma payload_errors_counterexample :
  let run := call (always 1000 (FetchOk partial_answer)) "Hello"
               groq_gemini in
  attempts run = 1%nat
  ∧ ∃ response,
      settled run = Resolved response
      ∧ response !! "provider" = Some (FProvider GROQ)
      ∧ response !! "errors" = Some (FRaw (JOther "[]")).
Proof.
  split; [reflexivity|].
  eexists. split; [reflexivity|]. split; reflexivity.
Qed.

(** ** C9 *)

Lemma demoted_paired n (σ : Store) l x :
  keeps_paired (σ x) (demoted n σ l x).
Proof.
  unfold keeps_paired, paired.
  by destruct (demoted_frame n σ l x) as (_ & -> & -> & _).
Qed.

Lemma call_paired w prompt fa x :
  keeps_paired (store fa x) (store (after (call w prompt fa)) x).
Proof.
  apply call_rel; try apply _.
  - apply checkAndRecoverPriority_paired.
  - apply recoverPriorityOnSuccess_paired.
  - intros t k p _. split; discriminate.
  - intros n p H. exact H.
Qed.

(** C9: every operation keeps [lastFailureTime] and [lastFailureType]
    both present or both absent.  The two recovery functions clear both
    or neither; the [catch] block sets both on the failed provider and
    touches no other; demotion, sorting, [addProvider] and
    [removeProvider] write neither; so a whole call keeps the pairing of
    every object, and the constructor's copies are paired when the
    objects given to it are. *)
Theorem failure_fields_paired :
  (∀ now o p, paired p → paired (checkAndRecoverPriority now o p))
  ∧ (∀ p, paired p → paired (recoverPriorityOnSuccess p))
  ∧ (∀ o now r e (σ : Store) q errs,
       paired ((on_failure o now r e (σ, q, errs)).1.1 r)
       ∧ ∀ x, paired (σ x) →
              paired ((on_failure o now r e (σ, q, errs)).1.1 x))
  ∧ (∀ (σ : Store) l toDemote x,
       paired (σ x) → paired ((updateProviderPriorities σ l toDemote).1 x))
  ∧ (∀ w prompt fa x,
       paired (store fa x) → paired (store (after (call w prompt fa)) x))
  ∧ (∀ input o fa,
       constructor input o = Ok fa → Forall paired input →
       ∀ x, paired (store fa x))
  ∧ (∀ r fa x,
       paired (store fa x) →
       paired (store (addProvider r fa) x)
       ∧ paired (store (removeProvider r fa) x)).
Proof.
  split_and!.
  - intros now o p. apply checkAndRecoverPriority_paired.
  - intros p. apply recoverPriorityOnSuccess_paired.
  - intros o now r e σ q errs. rewrite on_failure_unfold. simpl. split.
    + by rewrite fn_lookup_alter.
    + intros x Hx. destruct (decide (r = x)) as [->|Hne].
      * by rewrite fn_lookup_alter.
      * by rewrite fn_lookup_alter_ne.
  - intros σ l toDemote x. rewrite updateProviderPriorities_unfold.
    apply demoted_paired.
  - intros w prompt fa x. apply call_paired.
  - intros input o fa Hc Hin x.
    destruct input as [|p0 rest]; [done|]. injection Hc as <-. simpl.
    assert (paired (nth x (p0 :: rest) p0)) as Hnth; [|exact Hnth].
    rewrite Forall_forall in Hin. apply Hin.
    destruct (nth_in_or_default x (p0 :: rest) p0) as [Hi| ->].
    + by apply list_elem_of_In.
    + by left.
  - done.
Qed.

(** C9 witness: a provider with a failure on record is paired before and
    after a call that recovers it. *)
Lemma failure_fields_paired_witness :
  paired (store (after (call (always 2000 (FetchOk greeting)) "Hello"
                          groq_after_rate_limit)) 0%nat).
Proof.
  destruct failure_fields_paired as (_ & _ & _ & _ & H & _).
  apply H. split; discriminate.
Defined.

(** ** Where the array is left ascending *)

Lemma construct_ascending p0 rest o :
  Forall (λ p, ∃ z, priority p = Num z) (p0 :: rest) →
  ascending (store (construct p0 rest o))
            (getProviders (construct p0 rest o)).
Proof.
  intros Hnum. apply sortProviders_ascending.
  apply Forall_forall. intros r _. unfold prio. simpl store.
  rewrite Forall_forall in Hnum.
  assert (nth r (p0 :: rest) p0 ∈ p0 :: rest) as Hin.
  { destruct (nth_in_or_default r (p0 :: rest) p0) as [Hi| ->];
      [by apply list_elem_of_In|by left]. }
  exact (Hnum _ Hin).
Qed.

Lemma addProvider_store r fa : store (addProvider r fa) = store fa.
Proof. reflexivity. Qed.

Lemma addProvider_ascending r fa :
  numeric (store fa) (providers fa) → (∃ z, prio (store fa) r = Num z) →
  ascending (store (addProvider r fa)) (getProviders (addProvider r fa)).
Proof.
  intros Hnum Hr. apply sortProviders_ascending.
  apply Forall_app. split; [done|]. by apply Forall_singleton.
Qed.

(** ** Arrays without repeated objects

    The constructor's array holds each of its copies once, and a call
    only ever permutes the array. *)

Lemma construct_NoDup p0 rest o : NoDup (providers (construct p0 rest o)).
Proof.
  unfold construct. cbv zeta. cbn [providers].
  rewrite sortProviders_perm. apply NoDup_seq.
Qed.

Lemma on_success_perm all r payload st :
  (on_success all r payload st).1.2 ≡ₚ all.
Proof.
  destruct st as [[σ q] errs]. unfold on_success.
  destruct (0 <? length q)%nat; [|done].
  rewrite updateProviderPriorities_unfold. simpl.
  apply sortProviders_perm.
Qed.

Lemma call_loop_perm o all w todo i st :
  (call_loop o all w i todo st).1.1.2 ≡ₚ all.
Proof.
  revert i st. induction todo as [|r todo IH]; intros i st; [done|].
  rewrite call_loop_cons.
  destruct (attempt o all w i r st) as [fin|st1] eqn:E; [|apply IH].
  destruct st as [[σ q] errs].
  destruct (attempt_inl_inv _ _ _ _ _ _ _ E) as [payload Hf].
  rewrite (attempt_success _ _ _ _ _ _ _ _ _ Hf) in E.
  apply (inj inl) in E. subst fin.
  pose proof (on_success_perm all r payload
                (alter (checkAndRecoverPriority (checked_at (w i)) o) r σ,
                 q, errs)) as Hperm.
  by destruct (on_success _ _ _ _) as [[σ1 all1] response].
Qed.

Lemma call_providers_perm w prompt fa :
  providers (after (call w prompt fa)) ≡ₚ providers fa.
Proof.
  unfold call. destruct prompt as [|c prompt]; [done|].
  pose proof (call_loop_perm (options fa) (providers fa) w (providers fa)
                0 (store fa, [], [])) as H.
  by destruct (call_loop _ _ _ _ _ _) as [[[σ' all'] s] n].
Qed.

Lemma call_NoDup w prompt fa :
  NoDup (providers fa) → NoDup (providers (after (call w prompt fa))).
Proof. by rewrite call_providers_perm. Qed.

(** ** C1 *)

(** C1, evaluated where it fails: after the demotion the array is
    ascending; in the next call [checkAndRecoverPriority] resets groq to
    priority 1, nothing re-sorts, and [getProviders] returns gemini
    (priority 2) before groq (priority 1). *)
Theorem recovery_leaves_array_unsorted :
  (getProviders groq_demoted = [1; 0]%nat
   ∧ prio (store groq_demoted) 1 = Num 2
   ∧ prio (store groq_demoted) 0 = Num 3
   ∧ ascending (store groq_demoted) (getProviders groq_demoted))
  ∧ (getProviders groq_recovered = [1; 0]%nat
     ∧ prio (store groq_recovered) 1 = Num 2
     ∧ prio (store groq_recovered) 0 = Num 1
     ∧ lastFailureTime (store groq_recovered 0%nat) = None
     ∧ ¬ ascending (store groq_recovered) (getProviders groq_recovered)).
Proof.
  split; split_and!; try reflexivity.
  - repeat constructor.
  - intros H. apply StronglySorted_cons in H as [H _].
    apply Forall_cons in H as [H _]. discriminate H.
Qed.

(** ** C2 *)

(** C2, evaluated where it fails: both providers fail with status 400
    while priority updates are on.  The call is rejected with the
    message listing groq's and gemini's errors in order, after two
    attempts, but no priority was raised by the provider count: groq is
    still at 1 and gemini at 2. *)
Theorem all_failed_skips_demotion :
  let run := call (always 1000 bad_request) "Hello" groq_gemini in
  enablePriorityUpdates (options groq_gemini) = true
  ∧ attempts run = 2%nat
  ∧ (∃ e0 e1,
       settled run = Rejected (all_failed [e0; e1])
       ∧ (provider e0 = GROQ ∧ retryable e0 = false)
       ∧ (provider e1 = GEMINI ∧ retryable e1 = false))
  ∧ lastFailureType (store (after run) 0%nat) = Some NonRetryable
  ∧ lastFailureType (store (after run) 1%nat) = Some NonRetryable
  ∧ getProviders (after run) = [0; 1]%nat
  ∧ prio (store (after run)) 0 = Num 1
  ∧ prio (store (after run)) 1 = Num 2.
Proof.
  split_and!; try reflexivity.
  do 2 eexists. split; [reflexivity|]. by split.
Qed.

(** ** C3 *)

(** C3, evaluated where it fails: [addProvider] puts the new provider
    first in the array and leaves its [originalPriority] unset, where
    the constructor's copies have theirs set; the next recovery check
    then writes the unset value into [priority]. *)
Theorem addProvider_leaves_originalPriority_unset :
  originalPriority (plain MISTRAL 0) = Undefined
  ∧ getProviders with_mistral = [2; 0; 1]%nat
  ∧ originalPriority (store with_mistral 2%nat) = Undefined
  ∧ originalPriority (store with_mistral 0%nat) = Num 1
  ∧ priority (store mistral_rechecked 2%nat) = Undefined.
Proof. split_and!; reflexivity. Qed.

(** * Further properties *)

(** ** Sorting *)

(** [sortProviders] returns an ascending rearrangement of an array whose
    priorities are numbers. *)
Theorem sortProviders_sorts (σ : Store) (l : list ref) :
  numeric σ l →
  ascending σ (sortProviders σ l)
  ∧ sortProviders σ l ≡ₚ l
  ∧ length (sortProviders σ l) = length l.
Proof.
  intros Hnum. split_and!.
  - by apply sortProviders_ascending.
  - apply sortProviders_perm.
  - apply sortProviders_length.
Qed.

Lemma sortProviders_sorts_witness :
  sortProviders narrow_store [2; 0; 1]%nat ≡ₚ [2; 0; 1]%nat
  ∧ ascending narrow_store (sortProviders narrow_store [2; 0; 1]%nat).
Proof.
  destruct (sortProviders_sorts narrow_store [2; 0; 1]%nat) as (H1 & H2 & _).
  - repeat constructor; eexists; reflexivity.
  - by split.
Defined.

Lemma insert_provider_filter (σ : Store) (v : Z) x l :
  filter (λ r, prio σ r = Num v) (insert_provider σ x l)
  = filter (λ r, prio σ r = Num v) (x :: l).
Proof.
  induction l as [|y l IH]; [done|]. simpl insert_provider.
  destruct (js_positive (compare_priority σ x y)) eqn:Hpos; [|done].
  unfold compare_priority in Hpos.
  destruct (decide (prio σ y = Num v)) as [Hy|Hy].
  - assert (prio σ x ≠ Num v) as Hx.
    { intros Hx. rewrite Hx, Hy in Hpos. simpl in Hpos.
      apply Z.ltb_lt in Hpos. lia. }
    rewrite (filter_cons_True _ y) by done. rewrite IH.
    rewrite (filter_cons_False _ x) by done.
    rewrite (filter_cons_False _ x) by done.
    by rewrite (filter_cons_True _ y).
  - rewrite (filter_cons_False _ y) by done. rewrite IH.
    destruct (decide (prio σ x = Num v)) as [Hx|Hx].
    + rewrite !(filter_cons_True _ x) by done.
      by rewrite (filter_cons_False _ y).
    + rewrite !(filter_cons_False _ x) by done.
      by rewrite (filter_cons_False _ y).
Qed.

Lemma sortProviders_filter (σ : Store) (v : Z) (l : list ref) :
  filter (λ r, prio σ r = Num v) (sortProviders σ l)
  = filter (λ r, prio σ r = Num v) l.
Proof.
  induction l as [|x l IH]; [done|]. simpl sortProviders.
  rewrite insert_provider_filter.
  destruct (decide (prio σ x = Num v)) as [Hx|Hx].
  - rewrite !(filter_cons_True _ x) by done. by rewrite IH.
  - rewrite !(filter_cons_False _ x) by done. exact IH.
Qed.

(** On an array whose priorities are numbers [sortProviders] is
    stable: the providers of any one priority keep the order they
    had. *)
Theorem sortProviders_stable (σ : Store) (l : list ref) :
  numeric σ l →
  ∀ v, filter (λ r, prio σ r = Num v) (sortProviders σ l)
       = filter (λ r, prio σ r = Num v) l.
Proof.
  intros _ v. induction l as [|x l IH]; [done|].
  change (sortProviders σ (x :: l))
    with (insert_provider σ x (sortProviders σ l)).
  rewrite insert_provider_filter.
  destruct (decide (prio σ x = Num v)) as [Hx|Hx].
  - rewrite !(filter_cons_True _ x) by done. by rewrite IH.
  - rewrite !(filter_cons_False _ x) by done. exact IH.
Qed.

Lemma sortProviders_stable_witness :
  filter (λ r, prio tied_store r = Num 1)
    (sortProviders tied_store [1; 2; 0]%nat) = [2; 0]%nat.
Proof.
  rewrite (sortProviders_stable tied_store [1; 2; 0]%nat); [reflexivity|].
  repeat constructor; eexists; reflexivity.
Defined.

Lemma insert_provider_front (σ : Store) x l :
  Forall (prio_le σ x) l → insert_provider σ x l = x :: l.
Proof.
  destruct l as [|y l]; [done|]. intros [Hxy _]%Forall_cons. simpl.
  unfold prio_le, prio_leb in Hxy. unfold compare_priority.
  destruct (prio σ x), (prio σ y); try discriminate. simpl.
  apply Z.leb_le in Hxy.
  destruct (0 <? z - z0) eqn:E; [apply Z.ltb_lt in E; lia|done].
Qed.

(** Sorting an ascending array changes nothing; in particular sorting
    twice is sorting once. *)
Theorem sortProviders_ascending_fixed (σ : Store) (l : list ref) :
  (ascending σ l → sortProviders σ l = l)
  ∧ (numeric σ l →
       sortProviders σ (sortProviders σ l) = sortProviders σ l).
Proof.
  assert (∀ k, ascending σ k → sortProviders σ k = k) as Hfix.
  { intros k Hk. induction Hk as [|x k Hk IH Hx]; [done|].
    simpl. rewrite IH. by apply insert_provider_front. }
  split; [apply Hfix|].
  intros Hnum. by apply Hfix, sortProviders_ascending.
Qed.

Lemma sortProviders_ascending_fixed_witness :
  sortProviders narrow_store [0; 1; 2]%nat = [0; 1; 2]%nat.
Proof.
  destruct (sortProviders_ascending_fixed narrow_store [0; 1; 2]%nat)
    as [H _].
  apply H. repeat constructor.
Defined.

(** ** The constructor *)

(** The constructor throws on an empty array.  On any other it keeps one
    copy of each given provider, in ascending order of priority when the
    priorities are numbers; a copy differs from the given object only in
    [originalPriority], which is the given one when there is one and the
    priority otherwise, and so is never left unset. *)
Theorem constructor_spec (input : list Provider) (o : FallbackAIOptions) :
  (input = [] →
     constructor input o = Thrown "At least one provider must be specified")
  ∧ (input ≠ [] →
       ∃ fa, constructor input o = Ok fa
         ∧ options fa = fill_options o
         ∧ providers fa ≡ₚ seq 0 (length input)
         ∧ NoDup (providers fa)
         ∧ (∀ i p, input !! i = Some p →
              store fa i
              = set_originalPriority
                  (match originalPriority p with
                   | Undefined => priority p
                   | v => v
                   end) p)
         ∧ (Forall (λ p, ∃ z, priority p = Num z) input →
              ascending (store fa) (getProviders fa)
              ∧ ∀ i, (i < length input)%nat →
                     originalPriority (store fa i) ≠ Undefined)).
Proof.
  split; [by intros ->|]. intros Hne.
  destruct input as [|p0 rest]; [done|].
  exists (construct p0 rest o).
  assert (∀ i p, (p0 :: rest) !! i = Some p →
            store (construct p0 rest o) i
            = set_originalPriority
                (match originalPriority p with
                 | Undefined => priority p
                 | v => v
                 end) p) as Hcopy.
  { intros i p Hi. unfold construct. cbv zeta. cbn [store].
    rewrite (nth_lookup_Some _ _ _ _ Hi). unfold copy_provider, js_nullish.
    by destruct (originalPriority p). }
  split_and!; try done.
  - unfold construct. cbv zeta. cbn [providers]. apply sortProviders_perm.
  - apply construct_NoDup.
  - intros Hnum. split; [by apply construct_ascending|].
    intros i Hi. destruct (lookup_lt_is_Some_2 _ _ Hi) as [p Hp].
    rewrite (Hcopy i p Hp). simpl.
    rewrite Forall_forall in Hnum.
    destruct (Hnum p) as [z Hz]; [by eapply list_elem_of_lookup_2|].
    destruct (originalPriority p); [done|done|by rewrite Hz].
Qed.

Lemma constructor_spec_witness :
  ∃ fa, constructor [plain GEMINI 2; plain GROQ 1] no_options = Ok fa
        ∧ getProviders fa = [1; 0]%nat
        ∧ ascending (store fa) (getProviders fa).
Proof.
  destruct (constructor_spec [plain GEMINI 2; plain GROQ 1] no_options)
    as [_ H].
  destruct H as (fa & Hfa & _ & _ & _ & _ & Hasc); [discriminate|].
  exists fa. split; [exact Hfa|].
  split; [by injection Hfa as <-|].
  apply Hasc. repeat constructor; eexists; reflexivity.
Defined.

(** ** The recovery functions *)

(** [recoverPriorityOnSuccess] returns a provider without a failure on
    record as it is; with one on record it sets [priority] to
    [originalPriority] and clears both failure fields whatever the time,
    leaving the other fields.  Running it twice is running it once, and
    after it the recovery check has nothing left to do. *)
Theorem recoverPriorityOnSuccess_spec (p : Provider) :
  (lastFailureTime p = None ∨ lastFailureTime p = Some 0
   ∨ lastFailureType p = None →
     recoverPriorityOnSuccess p = p)
  ∧ (failure_on_record p →
       priority (recoverPriorityOnSuccess p) = originalPriority p
       ∧ lastFailureTime (recoverPriorityOnSuccess p) = None
       ∧ lastFailureType (recoverPriorityOnSuccess p) = None
       ∧ fixed_fields p (recoverPriorityOnSuccess p))
  ∧ recoverPriorityOnSuccess (recoverPriorityOnSuccess p)
    = recoverPriorityOnSuccess p
  ∧ (∀ now o,
       checkAndRecoverPriority now o (recoverPriorityOnSuccess p)
       = recoverPriorityOnSuccess p).
Proof.
  unfold recoverPriorityOnSuccess, checkAndRecoverPriority.
  split_and!.
  - intros [-> | [-> | ->]]; [done| |].
    + by destruct (lastFailureType p).
    + by destruct (lastFailureTime p).
  - intros (t & k & -> & Ht & ->). simpl.
    by destruct (Z.eqb_spec t 0).
  - destruct (lastFailureTime p) as [t|] eqn:Et,
      (lastFailureType p) as [k|] eqn:Ek; rewrite ?Et, ?Ek; try done.
    destruct (truthy_num (Some t)) eqn:E; [done|]. by rewrite Et, Ek, E.
  - intros now o.
    destruct (lastFailureTime p) as [t|] eqn:Et,
      (lastFailureType p) as [k|] eqn:Ek; rewrite ?Et, ?Ek; try done.
    destruct (truthy_num (Some t)) eqn:E; [done|]. by rewrite Et, Ek, E.
Qed.

Lemma recoverPriorityOnSuccess_spec_witness :
  priority (recoverPriorityOnSuccess demoted_provider) = Num 1
  ∧ lastFailureTime (recoverPriorityOnSuccess demoted_provider) = None.
Proof.
  destruct (recoverPriorityOnSuccess_spec demoted_provider)
    as (_ & H & _).
  destruct H as (Hp & Ht & _).
  - exists 1000, NonRetryable. split_and!; [reflexivity|lia|reflexivity].
  - split; [exact Hp|exact Ht].
Defined.

(** A recovery check followed by a later one does what the later one
    does alone: a provider recovered once is not touched again, and one
    not yet recovered is judged by the later clock. *)
Theorem checkAndRecoverPriority_later (now now' : Z) (o : Options)
    (p : Provider) :
  now ≤ now' →
  checkAndRecoverPriority now' o (checkAndRecoverPriority now o p)
  = checkAndRecoverPriority now' o p.
Proof.
  intros Hle. unfold checkAndRecoverPriority.
  destruct (lastFailureTime p) as [t|] eqn:Et,
    (lastFailureType p) as [k|] eqn:Ek; rewrite ?Et, ?Ek; try done.
  destruct (negb (truthy_num (Some t))) eqn:E; [by rewrite Et, Ek, E|].
  cbv zeta.
  assert (∀ limit,
            (limit <? now - t) = true → (limit <? now' - t) = true) as Hmono.
  { intros limit H. apply Z.ltb_lt in H. apply Z.ltb_lt. lia. }
  destruct k.
  - destruct (retryableErrorTimeout o <? now - t) eqn:E1.
    + by rewrite (Hmono _ E1).
    + by rewrite Et, Ek, E.
  - destruct (nonRetryableErrorTimeout o <? now - t) eqn:E1.
    + by rewrite (Hmono _ E1).
    + by rewrite Et, Ek, E.
Qed.

Lemma checkAndRecoverPriority_later_witness :
  checkAndRecoverPriority 2000000 default_options
    (checkAndRecoverPriority 2000 default_options demoted_provider)
  = checkAndRecoverPriority 2000000 default_options demoted_provider.
Proof. apply checkAndRecoverPriority_later. lia. Defined.

(** ** Adding and removing providers *)

Lemma remove_first_absent r l : r ∉ l → remove_first r l = l.
Proof.
  induction l as [|x l IH]; [done|]. intros [Hne Hr]%not_elem_of_cons.
  simpl. destruct (decide (x = r)); [congruence|]. by rewrite IH.
Qed.

Lemma remove_first_middle r l1 l2 :
  r ∉ l1 → remove_first r (l1 ++ r :: l2) = l1 ++ l2.
Proof.
  induction l1 as [|x l1 IH]; simpl.
  - intros _. by destruct (decide (r = r)).
  - intros [Hne Hr]%not_elem_of_cons.
    destruct (decide (x = r)); [congruence|]. by rewrite IH.
Qed.

Lemma remove_first_elem r l x : x ∈ remove_first r l → x ∈ l.
Proof.
  induction l as [|y l IH]; [done|]. simpl.
  destruct (decide (y = r)); [by right|].
  intros [->|Hx]%elem_of_cons; [by left|right; auto].
Qed.

Lemma remove_first_ascending σ r l :
  ascending σ l → ascending σ (remove_first r l).
Proof.
  unfold ascending. induction 1 as [|x l Hl IH Hx]; [constructor|].
  simpl. destruct (decide (x = r)); [done|].
  constructor; [done|].
  rewrite Forall_forall in Hx. apply Forall_forall.
  intros y Hy. by apply Hx, (remove_first_elem r).
Qed.

(** [removeProvider] never touches a provider object or the options.  A
    reference that is not in the array leaves the array as it is; one
    that is there loses its first entry only, everything else keeping
    its place, so an ascending array stays ascending. *)
Theorem removeProvider_spec (r : ref) (fa : FallbackAI) :
  store (removeProvider r fa) = store fa
  ∧ options (removeProvider r fa) = options fa
  ∧ (r ∉ providers fa → getProviders (removeProvider r fa) = providers fa)
  ∧ (∀ l1 l2, providers fa = l1 ++ r :: l2 → r ∉ l1 →
       getProviders (removeProvider r fa) = l1 ++ l2)
  ∧ (r ∈ providers fa →
       S (length (getProviders (removeProvider r fa)))
       = length (providers fa))
  ∧ (ascending (store fa) (providers fa) →
       ascending (store (removeProvider r fa))
                 (getProviders (removeProvider r fa))).
Proof.
  unfold getProviders. simpl. split_and!; try done.
  - apply remove_first_absent.
  - intros l1 l2 -> Hr. by apply remove_first_middle.
  - intros Hin. apply list_elem_of_split_l in Hin as (l1 & l2 & -> & Hr).
    rewrite remove_first_middle by done. rewrite !length_app. simpl. lia.
  - apply remove_first_ascending.
Qed.

Lemma removeProvider_spec_witness :
  getProviders (removeProvider 0%nat groq_gemini) = [1%nat]
  ∧ getProviders (removeProvider 7%nat groq_gemini) = [0; 1]%nat.
Proof.
  destruct (removeProvider_spec 0%nat groq_gemini)
    as (_ & _ & _ & Hmid & _).
  destruct (removeProvider_spec 7%nat groq_gemini)
    as (_ & _ & Habs & _).
  split.
  - apply (Hmid [] [1%nat]); [reflexivity|]. apply not_elem_of_nil.
  - apply Habs. intros Hin.
    repeat (apply elem_of_cons in Hin as [Hin|Hin]; [discriminate|]).
    by apply elem_of_nil in Hin.
Defined.

(** [addProvider] never touches a provider object or the options.  The
    array gains the reference once and is re-sorted.  When the
    priorities, the new provider's included, are numbers, the array is
    ascending and among providers of one priority the new one comes
    last. *)
Theorem addProvider_spec (r : ref) (fa : FallbackAI) :
  store (addProvider r fa) = store fa
  ∧ options (addProvider r fa) = options fa
  ∧ getProviders (addProvider r fa) ≡ₚ r :: providers fa
  ∧ length (getProviders (addProvider r fa)) = S (length (providers fa))
  ∧ (numeric (store fa) (providers fa) →
     (∃ z, prio (store fa) r = Num z) →
       ascending (store (addProvider r fa))
                 (getProviders (addProvider r fa))
       ∧ ∀ v, filter (λ x, prio (store fa) x = Num v)
                (getProviders (addProvider r fa))
              = filter (λ x, prio (store fa) x = Num v)
                  (providers fa ++ [r])).
Proof.
  unfold getProviders. simpl. split_and!; try done.
  - rewrite sortProviders_perm. by rewrite Permutation_app_comm.
  - rewrite sortProviders_length, length_app. simpl. lia.
  - intros Hnum Hr. split; [by apply addProvider_ascending|].
    intros v. apply sortProviders_filter.
Qed.

Lemma addProvider_spec_witness :
  ascending (store (addProvider 0%nat (removeProvider 0%nat groq_gemini)))
    (getProviders (addProvider 0%nat (removeProvider 0%nat groq_gemini))).
Proof.
  apply (addProvider_spec 0%nat (removeProvider 0%nat groq_gemini)).
  - repeat constructor. eexists. reflexivity.
  - eexists. reflexivity.
Defined.

Lemma insert_provider_le σ x y l :
  prio_le σ x y → insert_provider σ x (y :: l) = x :: y :: l.
Proof.
  intros Hxy. simpl. unfold prio_le, prio_leb in Hxy.
  unfold compare_priority.
  destruct (prio σ x), (prio σ y); try discriminate. simpl.
  apply Z.leb_le in Hxy.
  destruct (0 <? z - z0) eqn:E; [apply Z.ltb_lt in E; lia|done].
Qed.

(** Where sorting puts a reference appended to an ascending array. *)
Lemma sortProviders_snoc σ r l :
  ascending σ l → r ∉ l →
  ∃ a b, l = a ++ b ∧ sortProviders σ (l ++ [r]) = a ++ r :: b ∧ r ∉ a.
Proof.
  unfold ascending. induction 1 as [|x l Hl IH Hx]; intros Hr.
  { exists [], []. split_and!; [done..|apply not_elem_of_nil]. }
  apply not_elem_of_cons in Hr as [Hne Hr].
  destruct (IH Hr) as (a & b & -> & Hs & Ha).
  change (sortProviders σ ((x :: a ++ b) ++ [r]))
    with (insert_provider σ x (sortProviders σ ((a ++ b) ++ [r]))).
  rewrite Hs. destruct a as [|y a].
  - simpl app. simpl insert_provider.
    destruct (js_positive (compare_priority σ x r)).
    + exists [], (x :: b). rewrite insert_provider_front by done.
      split_and!; [done..|apply not_elem_of_nil].
    + exists [x], b. split_and!; [done..|].
      by intros ->%list_elem_of_singleton.
  - apply Forall_cons in Hx as [Hxy _].
    exists (x :: y :: a), b.
    change ((y :: a) ++ r :: b) with (y :: (a ++ r :: b)).
    rewrite insert_provider_le by done.
    split_and!; [done..|]. by apply not_elem_of_cons.
Qed.

(** Adding a provider that is not yet in an ascending array and removing
    it again gives the array back. *)
Theorem add_then_remove (r : ref) (fa : FallbackAI) :
  r ∉ providers fa →
  ascending (store fa) (providers fa) →
  getProviders (removeProvider r (addProvider r fa)) = providers fa.
Proof.
  intros Hr Hasc. unfold getProviders. simpl.
  destruct (sortProviders_snoc (store fa) r (providers fa) Hasc Hr)
    as (a & b & Hab & -> & Ha).
  rewrite remove_first_middle by done. by rewrite Hab.
Qed.

Lemma add_then_remove_witness :
  getProviders (removeProvider 2%nat (addProvider 2%nat groq_gemini))
  = [0; 1]%nat.
Proof.
  apply (add_then_remove 2%nat groq_gemini).
  - intros Hin.
    repeat (apply elem_of_cons in Hin as [Hin|Hin]; [discriminate|]).
    by apply elem_of_nil in Hin.
  - repeat constructor.
Defined.

(** ** Demotion, counted *)



(** ** The request *)

(** The request body holds [model] and the one user message, and every
    key of [provider.parameters] other than [__proto__] with its value.
    The parameters are written last: a parameter named [model] or
    [messages] replaces the field of that name.  Nothing else is in the
    body; in particular [__proto__] never is. *)
Theorem generateRequestBody_spec (p : Provider) (prompt : string) :
  (parameters p = None →
     generateRequestBody p prompt
     = {[ "model" := VJson (JString (model p));
          "messages" := VMessages [("user", prompt)] ]})
  ∧ generateRequestBody p prompt !! "__proto__" = None
  ∧ (∀ ps, parameters p = Some ps →
       (∀ key j, key ≠ "__proto__" → ps !! key = Some j →
          generateRequestBody p prompt !! key = Some (VJson j))
       ∧ (ps !! "model" = None →
            generateRequestBody p prompt !! "model"
            = Some (VJson (JString (model p))))
       ∧ (ps !! "messages" = None →
            generateRequestBody p prompt !! "messages"
            = Some (VMessages [("user", prompt)]))
       ∧ (∀ key, key ≠ "model" → key ≠ "messages" → ps !! key = None →
            generateRequestBody p prompt !! key = None)).
Proof.
  unfold generateRequestBody. split_and!.
  - intros ->. apply map_eq. intros key.
    destruct (decide (key = "messages")) as [->|H1]; [done|].
    destruct (decide (key = "model")) as [->|H2]; [done|].
    rewrite !lookup_insert_ne by done.
    by rewrite lookup_empty, lookup_singleton_ne.
  - destruct (parameters p) as [ps|]; [|done].
    rewrite lookup_union_r by (by rewrite lookup_fmap, lookup_delete_eq).
    done.
  - intros ps ->. split_and!.
    + intros key j Hkey Hj. apply lookup_union_Some_l.
      by rewrite lookup_fmap, lookup_delete_ne, Hj.
    + intros Hm.
      rewrite lookup_union_r
        by (by rewrite lookup_fmap, lookup_delete_ne, Hm).
      done.
    + intros Hm.
      rewrite lookup_union_r
        by (by rewrite lookup_fmap, lookup_delete_ne, Hm).
      done.
    + intros key H1 H2 Hk.
      rewrite lookup_union_r.
      * by rewrite !lookup_insert_ne.
      * rewrite lookup_fmap.
        destruct (decide (key = "__proto__")) as [->|Hne].
        -- by rewrite lookup_delete_eq.
        -- by rewrite lookup_delete_ne, Hk.
Qed.

Lemma generateRequestBody_spec_witness :
  generateRequestBody overriding "Hello" !! "model"
  = Some (VJson (JString "mixtral")).
Proof.
  destruct (generateRequestBody_spec overriding "Hello") as (_ & _ & H).
  destruct (H {[ "model" := JString "mixtral" ]} eq_refl) as [Hover _].
  apply Hover; [discriminate|reflexivity].
Defined.

(** ** Error messages *)

(** The error recorded for a failed provider call never has an empty
    message.  For a response that was not [ok] the message starts with
    [Retryable] or [Non-retryable] in agreement with the [retryable]
    flag and names the provider and the detail; for a thrown exception
    it is the exception's message, or [Unknown error] when that is
    empty.  HTTP status codes are never 0. *)
Theorem error_message_spec (o : Options) (p : Provider) (f : FetchResult)
    (e : CaughtError) :
  makeProviderCall o p f = inr e →
  (∀ status errorObj detail,
     f = FetchHttpError status errorObj detail → status ≠ 0) →
  message (createAIError o p e) ≠ EmptyString
  ∧ provider (createAIError o p e) = aiName p
  ∧ (∀ status errorObj detail,
       f = FetchHttpError status errorObj detail →
       message (createAIError o p e)
       = (if retryable (createAIError o p e)
          then "Retryable" else "Non-retryable")
         +:+ " error for " +:+ dquote +:+ provider_string (aiName p)
         +:+ dquote +:+ ": " +:+ detail
       ∧ errorBody (createAIError o p e) = errorObj)
  ∧ (∀ msg, f = FetchThrows msg →
       message (createAIError o p e)
       = (if decide (msg = EmptyString) then "Unknown error" else msg)
       ∧ errorBody (createAIError o p e) = None).
Proof.
  intros Hcall Hstatus.
  destruct f as [payload|status errorObj detail|msg]; simpl in Hcall;
    [discriminate| |]; injection Hcall as <-.
  - specialize (Hstatus status errorObj detail eq_refl).
    unfold createAIError. simpl.
    destruct (Z.eqb_spec status 0) as [?|_]; [done|]. simpl.
    destruct (includes (retryableCodes o) status); simpl;
      (split_and!; [done|done| |done]);
      by intros ??? [= _ <- <-].
  - unfold createAIError. simpl.
    split_and!; [by destruct msg|done|done|].
    intros ? [= <-]. by destruct msg.
Qed.

Lemma error_message_spec_witness :
  ∃ e, makeProviderCall default_options (configured GROQ 1) bad_request
         = inr e
       ∧ message (createAIError default_options (configured GROQ 1) e)
         ≠ EmptyString.
Proof.
  eexists. split; [reflexivity|].
  eapply (error_message_spec default_options (configured GROQ 1)
            bad_request).
  - reflexivity.
  - intros status errorObj detail [= <- _ _]. lia.
Defined.

(** ** Whole calls *)

Lemma attempt_inr_unfold o all w i r (σ : Store) q errs σ1 q1 errs1 :
  attempt o all w i r (σ, q, errs) = inr (σ1, q1, errs1) →
  ∃ e,
    makeProviderCall o
      (checkAndRecoverPriority (checked_at (w i)) o (σ r)) (fetched (w i))
      = inr e
    ∧ σ1 r
      = set_failure (Some (failed_at (w i)))
          (Some (kind_of
                   (createAIError o
                      (checkAndRecoverPriority (checked_at (w i)) o (σ r))
                      e)))
          (checkAndRecoverPriority (checked_at (w i)) o (σ r))
    ∧ q1
      = (if negb (retryable
                    (createAIError o
                       (checkAndRecoverPriority (checked_at (w i)) o (σ r))
                       e))
            && enablePriorityUpdates o
         then q ++ [r] else q).
Proof.
  intros E.
  pose proof (attempt_inr_inv _ _ _ _ _ _ _ E) as Hf.
  destruct (attempt_failure o all w i r σ q errs Hf) as (e & He & E').
  rewrite E' in E. apply (inj inr) in E.
  rewrite on_failure_unfold, fn_lookup_alter in E.
  injection E as <- <- _. exists e.
  split_and!; [done| |done]. by rewrite !fn_lookup_alter.
Qed.

Lemma after_failures_queue_mono o all w l1 i (σ : Store) q errs σ' q' errs'
    x :
  after_failures o all w i l1 (σ, q, errs) = Some (σ', q', errs') →
  x ∈ q → x ∈ q'.
Proof.
  revert i σ q errs.
  induction l1 as [|r l1 IH]; intros i σ q errs H Hx.
  { by injection H as _ <- _. }
  simpl in H.
  destruct (attempt o all w i r (σ, q, errs)) as [fin|[[σ1 q1] errs1]] eqn:E;
    [done|].
  apply (IH _ _ _ _ H).
  destruct (attempt_inr_unfold _ _ _ _ _ _ _ _ _ _ _ E) as (e & _ & _ & ->).
  destruct (negb _ && _); [|done]. apply elem_of_app. by left.
Qed.

Lemma after_failures_NoDup_queue o all w l1 i (σ : Store) q errs σ' q'
    errs' :
  after_failures o all w i l1 (σ, q, errs) = Some (σ', q', errs') →
  NoDup q → NoDup l1 → (∀ x, x ∈ q → x ∉ l1) → NoDup q'.
Proof.
  revert i σ q errs.
  induction l1 as [|r l1 IH]; intros i σ q errs H Hq Hl Hdisj.
  { by injection H as _ <- _. }
  simpl in H. apply NoDup_cons in Hl as [Hr Hl].
  destruct (attempt o all w i r (σ, q, errs)) as [fin|[[σ1 q1] errs1]] eqn:E;
    [done|].
  destruct (attempt_inr_unfold _ _ _ _ _ _ _ _ _ _ _ E) as (e & _ & _ & Hq1).
  apply (IH _ _ _ _ H); [|done|].
  - subst q1. destruct (negb _ && _); [|done].
    apply NoDup_app. split_and!; [done| |apply NoDup_singleton].
    intros x Hx ->%list_elem_of_singleton.
    apply (Hdisj r Hx). by left.
  - intros x Hx Hin. subst q1.
    assert (x ∈ q ∨ x = r) as [Hxq| ->].
    { destruct (negb _ && _); [|by left].
      apply elem_of_app in Hx as [?|?%list_elem_of_singleton]; auto. }
    + apply (Hdisj x Hxq). by right.
    + done.
Qed.

(** After a prefix of failed attempts, the provider at each position of
    the prefix is as its recovery check left it, with the failure
    recorded, and is queued exactly when the error is not retryable and
    priority updates are on. *)
Lemma after_failures_at o all w l1 i (σ : Store) q errs σ' q' errs' j r :
  after_failures o all w i l1 (σ, q, errs) = Some (σ', q', errs') →
  NoDup l1 → l1 !! j = Some r →
  ∃ e,
    makeProviderCall o
      (checkAndRecoverPriority (checked_at (w (i + j)%nat)) o (σ r))
      (fetched (w (i + j)%nat)) = inr e
    ∧ σ' r
      = set_failure (Some (failed_at (w (i + j)%nat)))
          (Some (kind_of
                   (createAIError o
                      (checkAndRecoverPriority
                         (checked_at (w (i + j)%nat)) o (σ r)) e)))
          (checkAndRecoverPriority (checked_at (w (i + j)%nat)) o (σ r))
    ∧ (negb (retryable
               (createAIError o
                  (checkAndRecoverPriority
                     (checked_at (w (i + j)%nat)) o (σ r)) e))
       && enablePriorityUpdates o = true → r ∈ q')
    ∧ (negb (retryable
               (createAIError o
                  (checkAndRecoverPriority
                     (checked_at (w (i + j)%nat)) o (σ r)) e))
       && enablePriorityUpdates o = false → r ∉ q → r ∉ q').
Proof.
  revert i σ q errs j.
  induction l1 as [|x l1 IH]; intros i σ q errs j H Hnd Hj; [done|].
  simpl in H. apply NoDup_cons in Hnd as [Hx Hnd].
  destruct (attempt o all w i x (σ, q, errs)) as [fin|[[σ1 q1] errs1]] eqn:E;
    [done|].
  destruct (attempt_inr_frame _ _ _ _ _ _ _ _ _ _ _ E) as [Hframe Hqueue].
  destruct j as [|j]; simpl in Hj.
  - injection Hj as ->. rewrite Nat.add_0_r.
    destruct (attempt_inr_unfold _ _ _ _ _ _ _ _ _ _ _ E)
      as (e & He & Hσ1 & Hq1).
    exists e. split_and!; [done| | |].
    + by rewrite (after_failures_frame _ _ _ _ _ _ _ _ _ _ _ _ H Hx).
    + intros Hb. rewrite Hb in Hq1.
      apply (after_failures_queue_mono _ _ _ _ _ _ _ _ _ _ _ _ H).
      subst q1. apply elem_of_app. right. by left.
    + intros Hb Hrq Hin. rewrite Hb in Hq1. subst q1.
      destruct (after_failures_queue _ _ _ _ _ _ _ _ _ _ _ _ H Hin); done.
  - assert (r ≠ x) as Hne.
    { intros ->. apply Hx. by eapply list_elem_of_lookup_2. }
    destruct (IH _ _ _ _ _ H Hnd Hj) as (e & He & Hσ' & Hin & Hout).
    replace (S i + j)%nat with (i + S j)%nat in * by lia.
    rewrite (Hframe r Hne) in *.
    exists e. split_and!; [done..|].
    intros Hb Hrq. apply Hout; [done|].
    intros Hq1. destruct (Hqueue r Hq1); done.
Qed.

Lemma call_loop_rejected o all w todo i st σ' all' msg n :
  call_loop o all w i todo st = (σ', all', Rejected msg, n) →
  ∃ q1 errs1,
    after_failures o all w i todo st = Some (σ', q1, errs1)
    ∧ all' = all ∧ msg = all_failed errs1 ∧ n = (i + length todo)%nat.
Proof.
  revert i st. induction todo as [|r todo IH]; intros i st H.
  { destruct st as [[σ q] errs]. injection H as <- <- <- <-.
    exists q, errs. simpl. split_and!; [done..|lia]. }
  rewrite call_loop_cons in H. simpl.
  destruct (attempt o all w i r st) as [[[σ1 all1] resp1]|st1]; [done|].
  destruct (IH _ _ H) as (q1 & errs1 & Hpre & -> & -> & ->).
  exists q1, errs1. split_and!; [done..|]. simpl. lia.
Qed.

Lemma call_loop_attempts o all w todo i st :
  (i ≤ (call_loop o all w i todo st).2 ≤ i + length todo)%nat
  ∧ (todo ≠ [] → (i < (call_loop o all w i todo st).2)%nat).
Proof.
  revert i st. induction todo as [|r todo IH]; intros i st.
  { simpl. split; [lia|done]. }
  rewrite call_loop_cons.
  destruct (attempt o all w i r st) as [[[σ1 all1] resp1]|st1].
  - simpl. split; [lia|]. intros _. lia.
  - destruct (IH (S i) st1) as [Hb _]. simpl length.
    split; [lia|]. intros _. lia.
Qed.

(** A call with a non-empty prompt is rejected exactly when the fetch of
    every provider fails.  It has then tried each provider once, the
    array is as it was, and the message lists one error per provider in
    the order tried; on an array without repeated objects every provider
    has the failure recorded, with the time of its [catch] block, on top
    of what its recovery check left. *)
Theorem call_rejected_spec (fa : FallbackAI) (w : World) (prompt : string) :
  prompt ≠ EmptyString →
  ((∀ j, (j < length (providers fa))%nat →
         fetch_ok (fetched (w j)) = false)
   ↔ ∃ msg, settled (call w prompt fa) = Rejected msg)
  ∧ ((∀ j, (j < length (providers fa))%nat →
           fetch_ok (fetched (w j)) = false) →
     attempts (call w prompt fa) = length (providers fa)
     ∧ getProviders (after (call w prompt fa)) = providers fa
     ∧ (∃ errs,
          settled (call w prompt fa) = Rejected (all_failed errs)
          ∧ length errs = length (providers fa)
          ∧ ∀ j e, errs !! j = Some e →
              ∃ rj, providers fa !! j = Some rj
                    ∧ provider e = aiName (store fa rj))
     ∧ (NoDup (providers fa) →
        ∀ k r, providers fa !! k = Some r →
          ∃ kind,
            store (after (call w prompt fa)) r
            = set_failure (Some (failed_at (w k))) (Some kind)
                (checkAndRecoverPriority (checked_at (w k)) (options fa)
                   (store fa r)))).
Proof.
  intros Hp.
  destruct (call_projections w prompt fa Hp) as (Hst & Hpr & Hs & Hn).
  cbv zeta in *. unfold getProviders. rewrite Hst, Hpr, Hs, Hn.
  clear Hst Hpr Hs Hn.
  set (o := options fa). set (all := providers fa).
  assert ((∀ j, (j < length all)%nat → fetch_ok (fetched (w j)) = false) →
          ∃ σ1 q1 errs1,
            after_failures o all w 0 all (store fa, [], [])
              = Some (σ1, q1, errs1)
            ∧ call_loop o all w 0 all (store fa, [], [])
              = (σ1, all, Rejected (all_failed errs1), length all))
    as Hrun.
  { intros Hfail.
    destruct (after_failures_total o all w all 0 (store fa, [], []))
      as [[[σ1 q1] errs1] Hpre]; [done|].
    exists σ1, q1, errs1. split; [done|].
    pose proof (call_loop_app o all w all [] 0 _ _ Hpre) as Happ.
    rewrite app_nil_r in Happ. by rewrite Happ. }
  split.
  - split.
    + intros Hfail. destruct (Hrun Hfail) as (σ1 & q1 & errs1 & _ & ->).
      by eexists.
    + intros [msg Hmsg].
      destruct (call_loop o all w 0 all (store fa, [], []))
        as [[[σ' all'] s] n] eqn:Hloop.
      simpl in Hmsg. subst s.
      destruct (call_loop_rejected _ _ _ _ _ _ _ _ _ _ Hloop)
        as (q1 & errs1 & Hpre & _).
      intros j Hj.
      by apply (after_failures_failed _ _ _ _ _ _ _ Hpre j).
  - intros Hfail. destruct (Hrun Hfail) as (σ1 & q1 & errs1 & Hpre & ->).
    simpl.
    destruct (after_failures_errors _ _ _ _ _ _ _ _ _ _ _ Hpre)
      as (es & Hes & Hlen & Hnames). simpl in Hes. subst errs1.
    split_and!; [done|done| |].
    + exists es. by split_and!.
    + intros Hnd k r Hk.
      destruct (after_failures_at _ _ _ _ _ _ _ _ _ _ _ _ _ Hpre Hnd Hk)
        as (e & _ & Hσ1 & _).
      eexists. exact Hσ1.
Qed.

Lemma call_rejected_spec_witness :
  attempts (call (always 1000 bad_request) "Hello" groq_gemini) = 2%nat
  ∧ getProviders (after (call (always 1000 bad_request) "Hello"
                           groq_gemini)) = [0; 1]%nat.
Proof.
  destruct (call_rejected_spec groq_gemini (always 1000 bad_request)
              "Hello") as [_ H]; [discriminate|].
  destruct H as (Hn & Hp & _); [by intros j _|].
  split; [exact Hn|exact Hp].
Defined.

(** A call tries no provider twice: it makes at most as many attempts as
    there are providers, at least one when the prompt and the array are
    not empty, and none at all, changing nothing, when the prompt is
    empty. *)
Theorem call_attempts (fa : FallbackAI) (w : World) (prompt : string) :
  (attempts (call w prompt fa) ≤ length (providers fa))%nat
  ∧ (prompt ≠ EmptyString → providers fa ≠ [] →
       (1 ≤ attempts (call w prompt fa))%nat)
  ∧ (prompt = EmptyString →
       attempts (call w prompt fa) = 0%nat
       ∧ after (call w prompt fa) = fa
       ∧ settled (call w prompt fa)
         = Rejected "Prompt must be a non-empty string").
Proof.
  destruct prompt as [|c prompt].
  { simpl. split_and!; [lia|done|done]. }
  destruct (call_projections w (String c prompt) fa) as (_ & _ & _ & ->);
    [done|].
  cbv zeta.
  destruct (call_loop_attempts (options fa) (providers fa) w (providers fa)
              0 (store fa, [], [])) as [Hb Hpos].
  split_and!; [lia| |done].
  intros _ Hne. specialize (Hpos Hne). lia.
Qed.

Lemma call_attempts_witness :
  (1 ≤ attempts (call (always 1000 bad_request) "Hello" groq_gemini))%nat.
Proof.
  destruct (call_attempts groq_gemini (always 1000 bad_request) "Hello")
    as (_ & H & _).
  apply H; discriminate.
Defined.

Lemma check_numbered now o p :
  keeps_numbered p (checkAndRecoverPriority now o p).
Proof.
  destruct (checkAndRecoverPriority_cases now o p) as [-> | ->];
    intros [Hz Ho]; by split.
Qed.

Lemma success_numbered p : keeps_numbered p (recoverPriorityOnSuccess p).
Proof.
  destruct (recoverPriorityOnSuccess_cases p) as [-> | ->];
    intros [Hz Ho]; by split.
Qed.

Lemma bump_numbered n p : keeps_numbered p (bump n p).
Proof.
  intros [[z Hz] Ho]. split; [|done]. simpl. rewrite Hz. simpl. eauto.
Qed.

Global Instance keeps_numbered_refl : Reflexive keeps_numbered.
Proof. intros p H. exact H. Qed.

Global Instance keeps_numbered_trans : Transitive keeps_numbered.
Proof. intros p1 p2 p3 H12 H23 H. by apply H23, H12. Qed.

Lemma call_numbered w prompt fa x :
  keeps_numbered (store fa x) (store (after (call w prompt fa)) x).
Proof.
  apply (call_rel keeps_numbered).
  - apply check_numbered.
  - apply success_numbered.
  - intros t k p H. exact H.
  - apply bump_numbered.
Qed.

(** A call keeps the client's options, only rearranges the array, and
    writes nothing but [priority] and the two failure fields of any
    provider: in particular [originalPriority] never changes.  Priority
    fields that held numbers hold numbers afterwards. *)
Theorem call_keeps_registry (fa : FallbackAI) (w : World) (prompt : string) :
  options (after (call w prompt fa)) = options fa
  ∧ getProviders (after (call w prompt fa)) ≡ₚ providers fa
  ∧ (∀ x, fixed_fields (store fa x) (store (after (call w prompt fa)) x))
  ∧ (∀ x, numbered (store fa x) →
          numbered (store (after (call w prompt fa)) x)).
Proof.
  split_and!.
  - unfold call. destruct prompt; [done|].
    by destruct (call_loop _ _ _ _ _ _) as [[[σ' all'] s] n].
  - apply call_providers_perm.
  - intros x. apply call_fixed.
  - intros x. apply call_numbered.
Qed.

Lemma call_keeps_registry_witness :
  numbered (store (after (call (first_then_ok 1000 bad_request) "Hello"
                            groq_gemini)) 0%nat).
Proof.
  apply (call_keeps_registry groq_gemini (first_then_ok 1000 bad_request)
           "Hello").
  split; eexists; reflexivity.
Defined.

Lemma on_success_demoting all r payload (σ : Store) q errs :
  q ≠ [] →
  let σ2 :=
    if js_neq (originalPriority (σ r)) (priority (σ r))
    then alter recoverPriorityOnSuccess r σ else σ in
  (on_success all r payload (σ, q, errs)).1
  = (demoted (length all) σ2 q,
     sortProviders (demoted (length all) σ2 q) all).
Proof.
  intros Hq. unfold on_success. destruct q as [|x q]; [done|].
  by rewrite updateProviderPriorities_unfold.
Qed.

(** On an array without repeated objects, with priority updates on: when
    a provider fails with an error that is not retryable and a later
    provider answers, the failed provider ends the call with the
    provider count added (in double arithmetic) to the priority its
    recovery check left and with the failure recorded; when the
    priority fields of the array's providers held numbers, the array
    has been re-sorted by the new priorities and is ascending. *)
Theorem call_demotes (fa : FallbackAI) (w : World) (prompt : string)
    (j k : nat) (rj rk : ref) (payload : gmap string Json)
    (e : CaughtError) :
  let o := options fa in
  let checked :=
    checkAndRecoverPriority (checked_at (w j)) o (store fa rj) in
  prompt ≠ EmptyString →
  NoDup (providers fa) →
  providers fa !! j = Some rj →
  providers fa !! k = Some rk →
  (j < k)%nat →
  (∀ i, (i < k)%nat → fetch_ok (fetched (w i)) = false) →
  fetched (w k) = FetchOk payload →
  makeProviderCall o checked (fetched (w j)) = inr e →
  retryable (createAIError o checked e) = false →
  enablePriorityUpdates o = true →
  store (after (call w prompt fa)) rj
    = bump (length (providers fa))
        (set_failure (Some (failed_at (w j))) (Some NonRetryable) checked)
  ∧ priority (store (after (call w prompt fa)) rj)
    = js_add (priority checked) (Z.of_nat (length (providers fa)))
  ∧ ((∀ r, r ∈ providers fa → numbered (store fa r)) →
       getProviders (after (call w prompt fa))
       = sortProviders (store (after (call w prompt fa))) (providers fa)
       ∧ ascending (store (after (call w prompt fa)))
                   (getProviders (after (call w prompt fa)))).
Proof.
  intros o checked Hp Hnd Hj Hk Hjk Hfail Hok Hcall Hret Hen.
  assert (∀ r, r ∈ providers fa → numbered (store fa r) →
            ∃ z, prio (store (after (call w prompt fa))) r = Num z) as Hnum.
  { intros r _ Hr. by destruct (call_numbered w prompt fa r Hr). }
  revert Hnum. unfold getProviders.
  destruct (call_projections w prompt fa Hp) as (-> & -> & _).
  cbv zeta. subst o.
  destruct (call_loop_reaches (options fa) (store fa) (providers fa) w k rk
              Hnd Hk Hfail)
    as (σk & qk & errsk & Hpre & -> & Hσk & Hqk & _ & _).
  assert (take k (providers fa) !! j = Some rj) as Hj'.
  { by rewrite lookup_take_lt. }
  assert (NoDup (take k (providers fa))) as Hnd'.
  { eapply sublist_NoDup; [exact Hnd|apply sublist_take]. }
  destruct (after_failures_at _ _ _ _ _ _ _ _ _ _ _ _ _ Hpre Hnd' Hj')
    as (e' & He' & Hσj & Hin & _).
  change (0 + j)%nat with j in *. fold checked in He', Hσj, Hin.
  assert (e' = e) as -> by congruence.
  rewrite Hret, Hen in Hin. specialize (Hin eq_refl).
  unfold kind_of in Hσj. rewrite Hret in Hσj.
  assert (NoDup qk) as Hndq.
  { eapply (after_failures_NoDup_queue _ _ _ _ _ _ _ _ _ _ _ Hpre);
      [constructor|done|]. by intros x Hx%elem_of_nil. }
  assert (rj ≠ rk) as Hne.
  { intros ->. pose proof (NoDup_lookup _ _ _ _ Hnd Hj Hk). lia. }
  assert (qk ≠ []) as Hqne by (by intros ->; apply elem_of_nil in Hin).
  rewrite call_loop_cons, (attempt_success _ _ _ _ _ _ _ _ _ Hok).
  pose proof (on_success_demoting (providers fa) rk payload
                (alter (checkAndRecoverPriority (checked_at (w k))
                          (options fa)) rk σk)
                qk errsk Hqne) as Hs.
  cbv zeta in Hs.
  destruct (on_success _ _ _ _) as [[σ1 all1] response].
  simpl in Hs. injection Hs as -> ->. simpl.
  set (σ2 := if js_neq _ _ then _ else _).
  assert (σ2 rj = σk rj) as Hσ2.
  { subst σ2. destruct (js_neq _ _); by rewrite !fn_lookup_alter_ne. }
  intros Hnum.
  assert (demoted (length (providers fa)) σ2 qk rj
          = bump (length (providers fa))
              (set_failure (Some (failed_at (w j))) (Some NonRetryable)
                 checked)) as Hfinal.
  { rewrite demoted_once by done. by rewrite Hσ2, Hσj. }
  split_and!; [done|by rewrite Hfinal|].
  intros Hall. split; [done|]. apply sortProviders_ascending.
  apply Forall_forall. intros r Hr. by apply Hnum, Hall.
Qed.

Lemma call_demotes_witness :
  priority (store (after (call (first_then_ok 1000 bad_request) "Hello"
                            groq_gemini)) 0%nat) = Num 3
  ∧ ascending
      (store (after (call (first_then_ok 1000 bad_request) "Hello"
                       groq_gemini)))
      (getProviders (after (call (first_then_ok 1000 bad_request) "Hello"
                              groq_gemini))).
Proof.
  destruct (call_demotes groq_gemini (first_then_ok 1000 bad_request)
              "Hello" 0%nat 1%nat 0%nat 1%nat greeting
              (mkCaughtError
                 ("Non-retryable error for " +:+ dquote +:+ "groq"
                  +:+ dquote +:+ ": Bad request")
                 (Some 400) None))
    as (_ & Hprio & Hasc).
  - discriminate.
  - apply NoDup_two. discriminate.
  - reflexivity.
  - reflexivity.
  - lia.
  - intros i Hi. assert (i = 0%nat) as -> by lia. reflexivity.
  - reflexivity.
  - reflexivity.
  - reflexivity.
  - reflexivity.
  - split; [exact Hprio|]. apply Hasc.
    intros r Hr.
    repeat (apply elem_of_cons in Hr as [->|Hr];
            [split; eexists; reflexivity|]).
    by apply elem_of_nil in Hr.
Defined.

Lemma recoverPriorityOnSuccess_recorded p :
  failure_on_record p → recoverPriorityOnSuccess p = recover p.
Proof.
  intros (t & k & Ht & Hne & Hk). unfold recoverPriorityOnSuccess.
  rewrite Ht, Hk. simpl. by destruct (Z.eqb_spec t 0).
Qed.

(** On an array without repeated objects: a provider that stands away
    from its configured priority with a failure on record, and answers a
    call, ends the call at its configured priority with no failure on
    record, whatever the time since the failure. *)
Theorem call_recovers_on_success (fa : FallbackAI) (w : World)
    (prompt : string) (k : nat) (r : ref) (payload : gmap string Json)
    (z z0 : Z) :
  prompt ≠ EmptyString →
  NoDup (providers fa) →
  providers fa !! k = Some r →
  (∀ j, (j < k)%nat → fetch_ok (fetched (w j)) = false) →
  fetched (w k) = FetchOk payload →
  priority (store fa r) = Num z →
  originalPriority (store fa r) = Num z0 →
  z ≠ z0 →
  failure_on_record (store fa r) →
  priority (store (after (call w prompt fa)) r) = Num z0
  ∧ lastFailureTime (store (after (call w prompt fa)) r) = None
  ∧ lastFailureType (store (after (call w prompt fa)) r) = None
  ∧ fixed_fields (store fa r) (store (after (call w prompt fa)) r).
Proof.
  intros Hp Hnd Hk Hfail Hok Hprio Horig Hne Hrec.
  assert (store (after (call w prompt fa)) r = recover (store fa r)) as ->;
    [|by rewrite <-Horig].
  destruct (call_projections w prompt fa Hp) as (-> & _). cbv zeta.
  destruct (call_loop_reaches (options fa) (store fa) (providers fa) w k r
              Hnd Hk Hfail)
    as (σk & qk & errsk & _ & -> & Hσk & Hqk & _ & _).
  rewrite call_loop_cons, (attempt_success _ _ _ _ _ _ _ _ _ Hok).
  set (σc := alter (checkAndRecoverPriority (checked_at (w k)) (options fa))
               r σk).
  assert (σc r
          = checkAndRecoverPriority (checked_at (w k)) (options fa)
              (store fa r)) as Hc.
  { subst σc. by rewrite fn_lookup_alter, Hσk. }
  pose proof (on_success_store (providers fa) r payload σc qk errsk r Hqk)
    as Hstore.
  destruct (on_success _ _ _ _) as [[σ1 all1] response].
  simpl in Hstore. simpl. rewrite Hstore. clear Hstore.
  destruct (checkAndRecoverPriority_cases (checked_at (w k)) (options fa)
              (store fa r)) as [Hsame|Hrecov]; rewrite Hc.
  - rewrite Hsame, Hprio, Horig. simpl.
    destruct (Z.eqb_spec z0 z) as [?|_]; [congruence|]. simpl.
    rewrite fn_lookup_alter, Hc, Hsame.
    by apply recoverPriorityOnSuccess_recorded.
  - rewrite Hrecov. simpl. rewrite Horig. simpl. rewrite Z.eqb_refl. simpl.
    by rewrite Hc, Hrecov.
Qed.

Lemma call_recovers_on_success_witness :
  priority
    (store (after (call (first_then_ok 2000 rate_limited) "Hello"
                     groq_demoted)) 0%nat) = Num 1
  ∧ lastFailureTime
      (store (after (call (first_then_ok 2000 rate_limited) "Hello"
                       groq_demoted)) 0%nat) = None.
Proof.
  destruct (call_recovers_on_success groq_demoted
              (first_then_ok 2000 rate_limited) "Hello" 1%nat 0%nat
              greeting 3 1) as (Hprio & Ht & _).
  - discriminate.
  - apply NoDup_two. discriminate.
  - reflexivity.
  - intros j Hj. assert (j = 0%nat) as -> by lia. reflexivity.
  - reflexivity.
  - reflexivity.
  - reflexivity.
  - lia.
  - exists 1000, NonRetryable. split_and!; [reflexivity|lia|reflexivity].
  - split; [exact Hprio|exact Ht].
Defined.

(** On an array without repeated objects: a call that resolves touches
    no provider that stands behind the one that answered; such a
    provider is not even checked for recovery. *)
Theorem call_leaves_later_providers (fa : FallbackAI) (w : World)
    (prompt : string) (k m : nat) (rk rm : ref)
    (payload : gmap string Json) :
  prompt ≠ EmptyString →
  NoDup (providers fa) →
  providers fa !! k = Some rk →
  providers fa !! m = Some rm →
  (k < m)%nat →
  (∀ j, (j < k)%nat → fetch_ok (fetched (w j)) = false) →
  fetched (w k) = FetchOk payload →
  store (after (call w prompt fa)) rm = store fa rm
  ∧ attempts (call w prompt fa) = S k.
Proof.
  intros Hp Hnd Hk Hm Hkm Hfail Hok.
  destruct (call_projections w prompt fa Hp) as (-> & _ & _ & ->).
  cbv zeta.
  destruct (call_loop_reaches (options fa) (store fa) (providers fa) w k rk
              Hnd Hk Hfail)
    as (σk & qk & errsk & Hpre & -> & _ & _ & _ & _).
  assert (rm ∉ take k (providers fa)) as Hout.
  { intros (i & Hi)%list_elem_of_lookup_1.
    pose proof (lookup_lt_Some _ _ _ Hi) as Hlt.
    rewrite length_take in Hlt.
    rewrite lookup_take_lt in Hi by lia.
    pose proof (NoDup_lookup _ _ _ _ Hnd Hi Hm). lia. }
  assert (rm ≠ rk) as Hne.
  { intros ->. pose proof (NoDup_lookup _ _ _ _ Hnd Hk Hm). lia. }
  assert (rm ∉ qk) as Hq.
  { intros Hin.
    destruct (after_failures_queue _ _ _ _ _ _ _ _ _ _ _ _ Hpre Hin)
      as [Hnil|?]; [by apply elem_of_nil in Hnil|done]. }
  rewrite call_loop_cons, (attempt_success _ _ _ _ _ _ _ _ _ Hok).
  pose proof (on_success_store (providers fa) rk payload
                (alter (checkAndRecoverPriority (checked_at (w k))
                          (options fa)) rk σk)
                qk errsk rm Hq) as Hstore.
  destruct (on_success _ _ _ _) as [[σ1 all1] response].
  simpl in Hstore. simpl. split; [|done]. rewrite Hstore.
  destruct (js_neq _ _); rewrite !fn_lookup_alter_ne by done;
    by eapply after_failures_frame.
Qed.

Lemma call_leaves_later_providers_witness :
  store (after (call (always 2000000 (FetchOk greeting)) "Hello"
                  groq_demoted)) 0%nat
  = store groq_demoted 0%nat.
Proof.
  eapply (call_leaves_later_providers groq_demoted
            (always 2000000 (FetchOk greeting)) "Hello" 0%nat 1%nat
            1%nat 0%nat greeting).
  - discriminate.
  - apply NoDup_two. discriminate.
  - reflexivity.
  - reflexivity.
  - lia.
  - intros j Hj. lia.
  - reflexivity.
Defined.
